(** * mcproxy: the configuration front end (src/parser/configuration.cpp)

    A shallow embedding of [configuration]: reading the script
    ([load_file]), removing comments ([delete_comments]), cutting the text
    into line-numbered commands ([separate_commands]), feeding the commands
    to the parser ([run_parser]) and resolving the interface names of every
    proxy instance ([initalize_interfaces]).

    Conventions.
    - A [std::string] is a [list ascii]; positions ([std::string::size_type])
      are [nat] and [std::string::npos] is [None].  Every position the code
      computes is bounded by the size of a string, so no position wraps.
    - An [unsigned int] is a [Z] in [0, 2^32), every operation on it is
      reduced by [uint].
    - A [throw "..."] is the result [Throw "..."]; the thrown C string is
      kept as it is in the source. *)

From Stdlib Require Import ZArith Ascii String List Lia Sorted.
From stdpp Require Import base option list gmap strings.
From Equations Require Import Equations.
From Equations.Prop Require Import Logic.
Import ListNotations.
Local Open Scope char_scope.

(** ** Characters and strings *)

Definition str (s : string) : list ascii := list_ascii_of_string s.

(** ['\n'] *)
Definition nl : ascii := "010".

(** [std::isspace] in the "C" locale: space, and the five controls
    ['\t' '\n' '\v' '\f' '\r'] (codes 9 to 13). *)
Definition isspace (c : ascii) : bool :=
  let n := nat_of_ascii c in
  (n =? 32)%nat || ((9 <=? n)%nat && (n <=? 13)%nat).

(** [s.find(c, pos)]: the first position [>= pos] that holds [c]. *)
Fixpoint find (s : list ascii) (c : ascii) (pos : nat) : option nat :=
  match s with
  | [] => None
  | x :: r =>
      match pos with
      | O => if Ascii.eqb x c then Some O else S <$> find r c O
      | S p => S <$> find r c p
      end
  end.

(** [s.erase(pos, len)].  The code calls it with [pos < s.size()] only
    (the position comes from [find]), so [std::out_of_range] is not
    raised. *)
Definition erase (s : list ascii) (pos len : nat) : list ascii :=
  take pos s ++ drop (pos + len) s.

(** [s.substr(pos, len)], called with [pos = 0]. *)
Definition substr (s : list ascii) (pos len : nat) : list ascii :=
  take len (drop pos s).

(** [ltrim]: erase from [begin()] to the first character that is not a
    space. *)
Fixpoint ltrim (s : list ascii) : list ascii :=
  match s with
  | [] => []
  | c :: r => if isspace c then ltrim r else s
  end.

(** [rtrim]: the same search through the reverse iterators, then erase
    from there to [end()]. *)
Definition rtrim (s : list ascii) : list ascii := rev (ltrim (rev s)).

Definition trim (s : list ascii) : list ascii := ltrim (rtrim s).

(** ** Unsigned integers *)

Definition UINT_MAX : Z := 2 ^ 32 - 1.

Definition uint (z : Z) : Z := z mod 2 ^ 32.

(** [count_chars]: an [unsigned int] counter incremented for every
    character equal to [comp]. *)
Definition count_chars (s : list ascii) (comp : ascii) : Z :=
  fold_left (fun count c => if Ascii.eqb c comp then uint (count + 1) else count)
    s 0%Z.

(** ** Exceptions *)

Inductive result (A : Type) : Type :=
| OK (a : A)
| Throw (what : string).
Arguments OK {A} a.
Arguments Throw {A} what.

(** ** Streams

    [std::getline(is, item, delim)] on a stream whose unread characters are
    [ss].  With nothing left to read no character is extracted and the
    stream fails ([None]); otherwise the characters before the first
    [delim] are stored in [item], and the delimiter is extracted and
    dropped. *)
Fixpoint read_until (delim : ascii) (ss : list ascii)
  : list ascii * list ascii :=
  match ss with
  | [] => ([], [])
  | c :: r =>
      if Ascii.eqb c delim then ([], r)
      else let '(item, rest) := read_until delim r in (c :: item, rest)
  end.

Definition getline (ss : list ascii) (delim : ascii)
  : option (list ascii * list ascii) :=
  match ss with
  | [] => None
  | _ :: _ => Some (read_until delim ss)
  end.

(** [while (std::getline(is, item, delim)) { body }], the body acting on a
    state of local variables. *)
Equations? while_getline {St : Type} (delim : ascii)
    (body : list ascii -> St -> St) (ss : list ascii) (st : St)
  : St by wf (length ss) lt :=
  while_getline delim body ss st with inspect (getline ss delim) := {
    | exist _ None _ := st
    | exist _ (Some (item, rest)) Hget :=
        while_getline delim body rest (body item st) }.
Proof.
  destruct ss as [|c r]; [discriminate|].
  injection Hget as Hget.
  assert (Hle : forall l, length (snd (read_until delim l)) <= length l).
  { induction l as [|x l IH]; simpl; [lia|].
    destruct (Ascii.eqb x delim); simpl; [lia|].
    destruct (read_until delim l); simpl in *; lia. }
  simpl in Hget. destruct (Ascii.eqb c delim).
  - injection Hget as _ <-. simpl. lia.
  - specialize (Hle r). destruct (read_until delim r) as [i r'].
    injection Hget as _ <-. simpl in *. lia.
Qed.

(** ** load_file

    The file system is the optional content of the file at [path]: [None]
    when the file cannot be opened. *)
Definition load_file (file : option (list ascii)) : result (list ascii) :=
  match file with
  | None => Throw "failed to open config file"
  | Some content =>
      OK (while_getline nl (fun line result => result ++ line ++ [nl])
            content [])
  end.

(** ** delete_comments *)

Definition comment_char : ascii := "#".
Definition end_of_comment : ascii := nl.

(** The [while (cc != npos)] loop; [cc] is [None] for [npos]. *)
Equations? delete_comments_loop (script_file : list ascii) (cc : option nat)
  : list ascii by wf (length script_file) lt :=
  delete_comments_loop script_file None := script_file;
  delete_comments_loop script_file (Some cc)
    with inspect (find script_file end_of_comment (cc + 1)) := {
    | exist _ None _ := substr script_file 0 cc
    | exist _ (Some eoc) Heoc :=
        delete_comments_loop (erase script_file cc (eoc - cc))
          (find (erase script_file cc (eoc - cc)) comment_char cc) }.
Proof.
  assert (Hfind : forall s c pos i,
             find s c pos = Some i -> pos <= i < length s).
  { induction s as [|x r IH]; intros c pos i; simpl; [discriminate|].
    destruct pos as [|p].
    - destruct (Ascii.eqb x c); [intros [= <-]; lia|].
      destruct (find r c 0) as [j|] eqn:E; simpl; [|discriminate].
      intros [= <-]. apply IH in E. lia.
    - destruct (find r c p) as [j|] eqn:E; simpl; [|discriminate].
      intros [= <-]. apply IH in E. lia. }
  apply Hfind in Heoc. unfold erase.
  rewrite length_app, length_take, length_drop. lia.
Qed.

Definition delete_comments (script_file : list ascii) : list ascii :=
  delete_comments_loop script_file (find script_file comment_char 0).

(** ** separate_commands *)

Definition cmd_separator : ascii := ";".

(** The local variables the loop updates: [current_line] and [result]. *)
Definition separate_body (item : list ascii)
    (st : Z * list (Z * list ascii)) : Z * list (Z * list ascii) :=
  let '(current_line, result) := st in
  let line_count_before := count_chars item nl in
  let item := ltrim item in
  let line_count_after := count_chars item nl in
  let item := rtrim item in
  let result :=
    match item with
    | [] => result
    | _ :: _ =>
        result ++
        [(uint (current_line + uint (line_count_before - line_count_after)),
          item)]
    end in
  (uint (current_line + line_count_before), result).

Definition separate_commands (script_file : list ascii)
  : list (Z * list ascii) :=
  snd (while_getline cmd_separator separate_body script_file (1%Z, [])).

(** ** The policy model

    configuration.cpp uses the classes below through their headers only. *)

(** Modelled from the spec: the enumeration [group_mem_protocol] is declared
    outside configuration.cpp.  The spec's "enumerated value selecting the
    multicast-management protocol family and version" (IGMP and MLD
    families); the constructor's default is [IGMPv3]. *)
Inductive group_mem_protocol : Type :=
| IGMPv1 | IGMPv2 | IGMPv3 | MLDv1 | MLDv2.

Inductive addr_family : Type := AF_INET | AF_INET6.

(** Modelled from the spec: [get_addr_family] is declared outside
    configuration.cpp; the protocol "affects which address family the
    policy applies to". *)
Definition get_addr_family (gmp : group_mem_protocol) : addr_family :=
  match gmp with
  | IGMPv1 | IGMPv2 | IGMPv3 => AF_INET
  | MLDv1 | MLDv2 => AF_INET6
  end.

(** Modelled from the spec: class [table] is declared outside
    configuration.cpp.  [{name: string, contents: address-matching data}];
    the contents are kept as the entries were written. *)
Record table : Type := mk_table {
  get_name : string;
  table_contents : list string
}.

(** Modelled from the spec: class [global_table_set] is declared outside
    configuration.cpp.  The Table Set is "a uniquely-named registry" of
    tables; [insert] reports a name collision by returning [false] and
    leaves the set as it was. *)
Definition global_table_set_insert (gts : gmap string table) (t : table)
  : bool * gmap string table :=
  match gts !! get_name t with
  | Some _ => (false, gts)
  | None => (true, <[get_name t := t]> gts)
  end.

(** Modelled from the spec: classes [interface] and [instance_definition]
    are declared outside configuration.cpp.  An InterfaceDefinition is a
    name and its filters (kept as bound by the parser, configuration.cpp
    never reads them); an InstanceDefinition is a name and the ordered
    downstream and upstream interface definitions.  The Instance Set is
    given in its iteration order. *)
Record interface : Type := mk_interface {
  get_if_name : string;
  if_filters : list (list ascii)
}.

Record instance_definition : Type := mk_instance_definition {
  get_instance_name : string;
  get_downstreams : list interface;
  get_upstreams : list interface
}.

(** Modelled from the spec: class [interfaces] is declared outside
    configuration.cpp.  A Resolved Interface Group holds the resolved
    numeric handles of one instance (in the order they were added), next to
    the two constructor arguments. *)
Record interfaces : Type := mk_interfaces {
  if_addr_family : addr_family;
  if_reset_reverse_path_filter : bool;
  resolved_handles : list Z
}.

(** The members of a [configuration] object. *)
Record configuration : Type := mk_configuration {
  m_in_debug_testing_mode : bool;
  m_reset_reverse_path_filter : bool;
  m_gmp : group_mem_protocol;
  m_global_table_set : gmap string table;
  m_inst_def_set : list instance_definition;
  m_cmds : list (Z * list ascii);
  m_interfaces_map : gmap string interfaces
}.

Definition set_gmp (g : group_mem_protocol) (c : configuration) :=
  mk_configuration (m_in_debug_testing_mode c) (m_reset_reverse_path_filter c)
    g (m_global_table_set c) (m_inst_def_set c) (m_cmds c)
    (m_interfaces_map c).

Definition set_global_table_set (gts : gmap string table) (c : configuration) :=
  mk_configuration (m_in_debug_testing_mode c) (m_reset_reverse_path_filter c)
    (m_gmp c) gts (m_inst_def_set c) (m_cmds c) (m_interfaces_map c).

Definition set_inst_def_set (ids : list instance_definition)
    (c : configuration) :=
  mk_configuration (m_in_debug_testing_mode c) (m_reset_reverse_path_filter c)
    (m_gmp c) (m_global_table_set c) ids (m_cmds c) (m_interfaces_map c).

Definition set_interfaces_map (m : gmap string interfaces)
    (c : configuration) :=
  mk_configuration (m_in_debug_testing_mode c) (m_reset_reverse_path_filter c)
    (m_gmp c) (m_global_table_set c) (m_inst_def_set c) (m_cmds c) m.

(** ** State and exceptions

    A method that updates a state [St] and may throw: it returns the state
    as it is when the method is left, and either a value or the thrown
    string. *)
Definition M (St A : Type) : Type := St -> St * result A.

Definition ret {St A : Type} (a : A) : M St A := fun st => (st, OK a).

Definition throw {St A : Type} (what : string) : M St A :=
  fun st => (st, Throw what).

Definition bind {St A B : Type} (m : M St A) (f : A -> M St B) : M St B :=
  fun st =>
    let '(st', r) := m st in
    match r with
    | OK a => f a st'
    | Throw what => (st', Throw what)
    end.

Notation "x <- m ;; k" := (bind m (fun x => k))
  (at level 100, m at next level, right associativity).
Notation "m ;;; k" := (bind m (fun _ => k))
  (at level 100, right associativity).

Definition gets {St A : Type} (f : St -> A) : M St A :=
  fun st => (st, OK (f st)).

Definition modify {St : Type} (f : St -> St) : M St unit :=
  fun st => (f st, OK tt).

(** A result of a call that leaves the state alone. *)
Definition lift {St A : Type} (r : result A) : M St A := fun st => (st, r).

(** A block that works on a local variable [v]: the value of the local
    when the block is left, or the exception that leaves it. *)
Definition with_local {St V A : Type} (v : V) (block : M V A) : M St V :=
  lift (let '(v', r) := block v in
        match r with
        | OK _ => OK v'
        | Throw what => Throw what
        end).

(** [for (auto e : l) { f(e) }] *)
Fixpoint for_each {St A : Type} (l : list A) (f : A -> M St unit)
  : M St unit :=
  match l with
  | [] => ret tt
  | e :: l' => f e ;;; for_each l' f
  end.

(** ** The parser

    Class [parser] is declared outside configuration.cpp; it is built from
    one command [(line, text)] and holds no state of the configuration.
    Every call may throw; an exception of the constructor counts as one of
    [get_parser_type], the first call on the new object.  The Table Set is handed over read-only; the
    Instance Set is handed over by reference and so is returned as the
    call leaves it. *)
Inductive parser_type : Type :=
| PT_PROTOCOL
| PT_INSTANCE_DEFINITION
| PT_TABLE
| PT_INTERFACE_RULE_BINDING
| PT_unlisted (** any other value, the [default] label *).

Class parser : Type := {
  get_parser_type : Z * list ascii -> result parser_type;
  parse_group_mem_proto : Z * list ascii -> result group_mem_protocol;
  parse_instance_definition :
    Z * list ascii -> M (list instance_definition) unit;
  parse_table :
    Z * list ascii -> gmap string table -> group_mem_protocol -> result table;
  parse_interface_rule_binding :
    Z * list ascii -> gmap string table -> group_mem_protocol ->
    M (list instance_definition) unit
}.

(** A call on the member [m_inst_def_set] of the configuration. *)
Definition on_inst_def_set {A : Type} (m : M (list instance_definition) A)
  : M configuration A :=
  fun c => let '(ids, r) := m (m_inst_def_set c) in (set_inst_def_set ids c, r).

Section RunParser.
Context `{P : parser}.

(** The body of the loop of [run_parser], for the command [e]. *)
Definition run_parser_body (e : Z * list ascii) : M configuration unit :=
  pt <- lift (get_parser_type e) ;;
  match pt with
  | PT_PROTOCOL =>
      gmp <- lift (parse_group_mem_proto e) ;;
      modify (set_gmp gmp)
  | PT_INSTANCE_DEFINITION =>
      on_inst_def_set (parse_instance_definition e)
  | PT_TABLE =>
      gts <- gets m_global_table_set ;;
      gmp <- gets m_gmp ;;
      t <- lift (parse_table e gts gmp) ;;
      let '(inserted, gts') := global_table_set_insert gts t in
      modify (set_global_table_set gts') ;;;
      if inserted then ret tt else throw "failed to parse configfile"
  | PT_INTERFACE_RULE_BINDING =>
      gts <- gets m_global_table_set ;;
      gmp <- gets m_gmp ;;
      on_inst_def_set (parse_interface_rule_binding e gts gmp)
  | PT_unlisted => throw "unkown parser type"
  end.

Definition run_commands (cmds : list (Z * list ascii))
  : M configuration unit :=
  for_each cmds run_parser_body.

Definition run_parser : M configuration unit :=
  cmds <- gets m_cmds ;; run_commands cmds.
End RunParser.

(** ** Interface resolution

    [interfaces::get_if_index] asks the operating system for the index of a
    named interface, [0] when there is none.  [interfaces::add_interface]
    is declared outside configuration.cpp: whether it succeeds depends on
    the operating system too. *)
Class resolver : Type := {
  get_if_index : string -> Z;
  add_interface_succeeds : interfaces -> Z -> bool
}.

Section InitializeInterfaces.
Context `{R : resolver}.

(** Modelled from the spec: [interfaces::add_interface] is declared
    outside configuration.cpp.  "Successfully resolved handles are
    grouped per instance": a successful call stores the handle. *)
Definition add_interface (if_index : Z) : M interfaces bool :=
  fun result =>
    if add_interface_succeeds result if_index
    then (mk_interfaces (if_addr_family result)
            (if_reset_reverse_path_filter result)
            (resolved_handles result ++ [if_index]), OK true)
    else (result, OK false).

(** The lambda [add]; its state is the local [result]. *)
Definition add (interf : interface) : M interfaces unit :=
  let if_index := get_if_index (get_if_name interf) in
  if (if_index =? 0)%Z then throw "unknown interface"
  else
    added <- add_interface if_index ;;
    if added then ret tt else throw "failed to add interface".

(** [m_interfaces_map.insert(std::pair(name, result)).second] *)
Definition interfaces_map_insert (name : string) (result : interfaces)
  : M configuration bool :=
  fun c =>
    match m_interfaces_map c !! name with
    | Some _ => (c, OK false)
    | None =>
        (set_interfaces_map (<[name := result]> (m_interfaces_map c)) c,
         OK true)
    end.

(** The body of the loop of [initalize_interfaces], for [inst]. *)
Definition initalize_interfaces_body (inst : instance_definition)
  : M configuration unit :=
  gmp <- gets m_gmp ;;
  reset <- gets m_reset_reverse_path_filter ;;
  let result := mk_interfaces (get_addr_family gmp) reset [] in
  result <- with_local result
              (for_each (get_downstreams inst) add ;;;
               for_each (get_upstreams inst) add) ;;
  inserted <- interfaces_map_insert (get_instance_name inst) result ;;
  if inserted then ret tt else throw "failed to add instance".

Definition initalize_interfaces : M configuration unit :=
  insts <- gets m_inst_def_set ;;
  for_each insts initalize_interfaces_body.
End InitializeInterfaces.

(** The members when the body of the constructor starts to parse: the
    initializer list, and the commands of the script. *)
Definition members_at_entry (in_debug_testing_mode
    reset_reverse_path_filter : bool) (cmds : list (Z * list ascii))
  : configuration :=
  mk_configuration in_debug_testing_mode reset_reverse_path_filter
    IGMPv3 ∅ [] cmds ∅.

(** ** The constructor

    An exception leaves the constructor: no object exists then. *)
Definition configuration_new `{P : parser} `{R : resolver}
    (file : option (list ascii))
    (reset_reverse_path_filter in_debug_testing_mode : bool)
  : result configuration :=
  match load_file file with
  | Throw what => Throw what
  | OK script =>
      let c :=
        members_at_entry in_debug_testing_mode reset_reverse_path_filter
          (separate_commands (delete_comments script)) in
      let '(c, r) :=
        (run_parser ;;;
         if negb in_debug_testing_mode then initalize_interfaces else ret tt)
          c in
      match r with
      | OK _ => OK c
      | Throw what => Throw what
      end
  end.

Definition get_interfaces_for_pinstance (c : configuration)
    (instance_name : string) : option interfaces :=
  m_interfaces_map c !! instance_name.

Definition get_group_mem_protocol (c : configuration) : group_mem_protocol :=
  m_gmp c.

Definition get_inst_def_set (c : configuration) : list instance_definition :=
  m_inst_def_set c.

(** ** What the spec says the splitter computes

    The definitions of this section follow the words of the spec, not the
    code; the theorems compare them with the code. *)

(** "Removes every span from a comment marker to the next line terminator
    (inclusive of the marker, exclusive of the terminator); if a comment
    marker has no following line terminator, everything from the marker to
    end of input is removed."  [strip_comments] copies the text outside a
    comment, [skip_comment] drops the text inside one. *)
Fixpoint strip_comments (s : list ascii) : list ascii :=
  match s with
  | [] => []
  | c :: r =>
      if Ascii.eqb c comment_char then skip_comment r
      else c :: strip_comments r
  end
with skip_comment (s : list ascii) : list ascii :=
  match s with
  | [] => []
  | c :: r =>
      if Ascii.eqb c end_of_comment then c :: strip_comments r
      else skip_comment r
  end.

(** The number of line terminators of a text. *)
Definition newlines (s : list ascii) : Z :=
  Z.of_nat (count_occ ascii_dec s nl).

(** The segments of a text "split on a statement-terminator character". *)
Fixpoint split_on (d : ascii) (s : list ascii) : list (list ascii) :=
  match s with
  | [] => [[]]
  | c :: r =>
      if Ascii.eqb c d then [] :: split_on d r
      else
        match split_on d r with
        | seg :: segs => (c :: seg) :: segs
        | [] => [[c]]
        end
  end.

(** The leading whitespace that trimming takes away from a segment. *)
Fixpoint leading_spaces (s : list ascii) : list ascii :=
  match s with
  | [] => []
  | c :: r => if isspace c then c :: leading_spaces r else []
  end.

(** "Trims leading/trailing whitespace from each resulting segment;
    discards empty segments; computes each retained segment's starting line
    number as the running line counter plus the number of leading newline
    characters trimmed away from that segment; advances the running line
    counter by the total newline count of the raw (untrimmed) segment." *)
Fixpoint number_commands (line : Z) (segments : list (list ascii))
  : list (Z * list ascii) :=
  match segments with
  | [] => []
  | seg :: rest =>
      match trim seg with
      | [] => number_commands (line + newlines seg)%Z rest
      | cmd =>
          ((line + newlines (leading_spaces seg))%Z, cmd)
          :: number_commands (line + newlines seg)%Z rest
      end
  end.

Definition split_commands (s : list ascii) : list (Z * list ascii) :=
  number_commands 1 (split_on cmd_separator s).

(** The items that successive calls of [getline] read from a stream: a
    delimiter ends an item, and an unfinished last item counts when it is
    not empty. *)
Fixpoint getlines (d : ascii) (ss : list ascii) : list (list ascii) :=
  match ss with
  | [] => []
  | c :: r =>
      if Ascii.eqb c d then [] :: getlines d r
      else
        match getlines d r with
        | [] => [[c]]
        | item :: items => (c :: item) :: items
        end
  end.

(** The line terminators of a list of segments. *)
Definition total_newlines (segs : list (list ascii)) : Z :=
  fold_right Z.add 0%Z (map newlines segs).

(** A line number stored in an [unsigned int]. *)
Definition stored (cmd : Z * list ascii) : Z * list ascii :=
  (uint (fst cmd), snd cmd).

(** The line terminator a text lacks at its end. *)
Definition missing_terminator (s : list ascii) : list ascii :=
  match last s with
  | Some c => if Ascii.eqb c nl then [] else [nl]
  | None => []
  end.

(** The names an instance has resolved, downstream first. *)
Definition if_names (inst : instance_definition) : list string :=
  map get_if_name (get_downstreams inst ++ get_upstreams inst).

(** Every handle of every group of the map is a real one. *)
Definition handles_valid (m : gmap string interfaces) : Prop :=
  map_Forall (fun _ group => Forall (fun h => h <> 0%Z) (resolved_handles group)) m.

(** ** A sample environment

    A concrete parser and a concrete resolver, to run the configuration on
    concrete scripts. *)
Module Sample.

(** The words of a command, separated by whitespace. *)
Fixpoint words_from (cur : list ascii) (s : list ascii)
  : list (list ascii) :=
  match s with
  | [] => match cur with [] => [] | _ :: _ => [rev cur] end
  | c :: r =>
      if isspace c then
        match cur with
        | [] => words_from [] r
        | _ :: _ => rev cur :: words_from [] r
        end
      else words_from (c :: cur) r
  end.

Definition words (s : list ascii) : list string :=
  map string_of_list_ascii (words_from [] s).

Definition is_keyword (k : string) (w : string) : bool := String.eqb k w.

Definition protocol_of_name (w : string) : result group_mem_protocol :=
  if String.eqb w "IGMPv1" then OK IGMPv1
  else if String.eqb w "IGMPv2" then OK IGMPv2
  else if String.eqb w "IGMPv3" then OK IGMPv3
  else if String.eqb w "MLDv1" then OK MLDv1
  else if String.eqb w "MLDv2" then OK MLDv2
  else Throw "malformed protocol declaration".

(** The words before and after the first occurrence of [k]. *)
Fixpoint cut_at (k : string) (ws : list string)
  : list string * option (list string) :=
  match ws with
  | [] => ([], None)
  | w :: r =>
      if String.eqb w k then ([], Some r)
      else let '(a, b) := cut_at k r in (w :: a, b)
  end.

Definition has_instance (name : string) (ids : list instance_definition)
  : bool :=
  existsb (fun i => String.eqb (get_instance_name i) name) ids.

(** Modelled from the spec: class [parser] is declared outside
    configuration.cpp.  A reduced grammar with the command kinds of the
    spec's scenario: [protocol NAME], [table NAME entries...] and
    [instance NAME downstream: names... upstream: names...]; an instance
    name that is already defined is refused.  Rule bindings are not part
    of the reduced grammar. *)
Definition parser : parser := {|
  get_parser_type e :=
    match words (snd e) with
    | w :: _ =>
        if is_keyword "protocol" w then OK PT_PROTOCOL
        else if is_keyword "table" w then OK PT_TABLE
        else if is_keyword "instance" w then OK PT_INSTANCE_DEFINITION
        else Throw "failed to parse command"
    | [] => Throw "failed to parse command"
    end;
  parse_group_mem_proto e :=
    match words (snd e) with
    | [_; name] => protocol_of_name name
    | _ => Throw "malformed protocol declaration"
    end;
  parse_instance_definition e :=
    match words (snd e) with
    | _ :: name :: kw :: rest =>
        if is_keyword "downstream:" kw then
          match cut_at "upstream:" rest with
          | (downs, Some ups) =>
              ids <- gets id ;;
              if has_instance name ids then throw "instance already exists"
              else
                modify (fun ids =>
                  ids ++ [mk_instance_definition name
                            (map (fun n => mk_interface n []) downs)
                            (map (fun n => mk_interface n []) ups)])
          | (_, None) => throw "malformed instance definition"
          end
        else throw "malformed instance definition"
    | _ => throw "malformed instance definition"
    end;
  parse_table e _ _ :=
    match words (snd e) with
    | _ :: name :: entries => OK (mk_table name entries)
    | _ => Throw "malformed table definition"
    end;
  parse_interface_rule_binding _ _ _ := throw "failed to parse command"
|}.

(** A host with the interfaces [lo], [eth0] and [eth1]; adding an
    interface always succeeds. *)
Definition resolver : resolver := {|
  get_if_index name :=
    if String.eqb name "lo" then 1%Z
    else if String.eqb name "eth0" then 2%Z
    else if String.eqb name "eth1" then 3%Z
    else 0%Z;
  add_interface_succeeds _ _ := true
|}.

(** The instance [P1] between [eth0] and [eth1], and the instance [P2]
    whose upstream [wlan7] the host does not have. *)
Definition two_instances_script : list ascii :=
  str "protocol IGMPv3;  # IPv4" ++ nl ::
  str "instance P1 downstream: eth0 upstream: eth1;" ++ nl ::
  str "instance P2 downstream: eth0 upstream: wlan7;" ++ [nl].

(** The members after that script is parsed. *)
Definition two_instances : configuration :=
  mk_configuration false false IGMPv3 ∅
    [mk_instance_definition "P1"
       [mk_interface "eth0" []] [mk_interface "eth1" []];
     mk_instance_definition "P2"
       [mk_interface "eth0" []] [mk_interface "wlan7" []]]
    (separate_commands (delete_comments two_instances_script)) ∅.

End Sample.

(** ** Proof automation *)

(** Unfolds the operations of [M]. *)
Ltac unfold_M :=
  unfold with_local, on_inst_def_set in *;
  unfold bind, lift, gets, modify, ret, throw in *.

(** ** Notions used by the further properties *)

(** A text of whitespace only. *)
Definition blank (s : list ascii) : Prop :=
  Forall (fun c => isspace c = true) s.

(** A command whose stored line number is moved [n] lines down. *)
Definition shift_lines (n : Z) (cmd : Z * list ascii) : Z * list ascii :=
  (uint (fst cmd + n), snd cmd).

(** Every table of the set is filed under its own name. *)
Definition table_names_valid (gts : gmap string table) : Prop :=
  map_Forall (fun name t => get_name t = name) gts.

(** The group [initalize_interfaces] builds for an instance. *)
Definition group_of `{R : resolver} (c : configuration)
    (inst : instance_definition) : interfaces :=
  mk_interfaces (get_addr_family (m_gmp c)) (m_reset_reverse_path_filter c)
    (map get_if_index (if_names inst)).

(** ** Further sample environments *)

(** A script with one instance whose interfaces the sample host has, and
    the configuration the constructor builds from it in production mode. *)
Definition one_instance_script : list ascii :=
  str "instance P1 downstream: eth0 upstream: eth1;".

Definition one_instance : configuration :=
  mk_configuration false false IGMPv3 ∅
    [mk_instance_definition "P1"
       [mk_interface "eth0" []] [mk_interface "eth1" []]]
    [(1%Z, str "instance P1 downstream: eth0 upstream: eth1")]
    {[ "P1"%string := mk_interfaces AF_INET false [2%Z; 3%Z] ]}.

(** The sample host when a group takes one interface and no more. *)
Definition crowded_resolver : resolver := {|
  get_if_index := get_if_index (resolver := Sample.resolver);
  add_interface_succeeds group _ :=
    (length (resolved_handles group) <? 1)%nat
|}.

(** Members whose Instance Set holds the name [P1] twice. *)
Definition same_name_instances : configuration :=
  mk_configuration false false IGMPv3 ∅
    [mk_instance_definition "P1" [mk_interface "eth0" []] [];
     mk_instance_definition "P1" [mk_interface "eth1" []] []]
    [] ∅.

(** * Properties *)

(** ** The loops, unfolded once *)

Lemma delete_comments_loop_Some (s : list ascii) (cc : nat) :
  delete_comments_loop s (Some cc) =
  match find s end_of_comment (cc + 1) with
  | None => substr s 0 cc
  | Some eoc =>
      delete_comments_loop (erase s cc (eoc - cc))
        (find (erase s cc (eoc - cc)) comment_char cc)
  end.
Proof.
  simp delete_comments_loop.
  destruct (inspect (find s end_of_comment (cc + 1))) as [[eoc|] H];
    simp delete_comments_loop; rewrite H; reflexivity.
Qed.

Lemma while_getline_step {St : Type} (d : ascii)
    (body : list ascii -> St -> St) (ss : list ascii) (st : St) :
  while_getline d body ss st =
  match getline ss d with
  | None => st
  | Some (item, rest) => while_getline d body rest (body item st)
  end.
Proof.
  rewrite while_getline_equation_1.
  destruct (inspect (getline ss d)) as [[[item rest]|] H];
    cbn; rewrite H; reflexivity.
Qed.

(** ** Searching a string *)

Lemma eqb_false_ne (x c : ascii) : Ascii.eqb x c = false -> x <> c.
Proof. intros H ->. rewrite Ascii.eqb_refl in H. discriminate. Qed.

Lemma find_app_length (p r : list ascii) (c : ascii) :
  find (p ++ r) c (length p) = (fun i => length p + i) <$> find r c 0.
Proof.
  induction p as [|x p IH]; simpl.
  - destruct (find r c 0); reflexivity.
  - rewrite IH. destruct (find r c 0); reflexivity.
Qed.

Lemma find_0_None (r : list ascii) (c : ascii) :
  find r c 0 = None -> Forall (fun x => x <> c) r.
Proof.
  induction r as [|x r IH]; simpl; intros H; [constructor|].
  destruct (Ascii.eqb x c) eqn:E; [discriminate|].
  destruct (find r c 0); [discriminate|].
  constructor; [apply eqb_false_ne, E | apply IH; reflexivity].
Qed.

Lemma find_0_Some (r : list ascii) (c : ascii) (j : nat) :
  find r c 0 = Some j ->
  exists a b, r = a ++ c :: b /\ Forall (fun x => x <> c) a /\ length a = j.
Proof.
  revert j. induction r as [|x r IH]; simpl; intros j H; [discriminate|].
  destruct (Ascii.eqb x c) eqn:E.
  - apply Ascii.eqb_eq in E. subst x. injection H as <-.
    exists [], r. repeat split; constructor.
  - destruct (find r c 0) as [k|]; [|discriminate].
    injection H as <-. destruct (IH k eq_refl) as (a & b & -> & Ha & <-).
    exists (x :: a), b. repeat split.
    constructor; [apply eqb_false_ne, E | exact Ha].
Qed.

(** ** Comments *)

Lemma strip_comments_no_marker (s : list ascii) :
  Forall (fun x => x <> comment_char) s -> strip_comments s = s.
Proof.
  induction 1 as [|x s Hx _ IH]; simpl; [reflexivity|].
  destruct (Ascii.eqb x comment_char) eqn:E.
  - apply Ascii.eqb_eq in E. contradiction.
  - rewrite IH. reflexivity.
Qed.

Lemma strip_comments_app (a s : list ascii) :
  Forall (fun x => x <> comment_char) a ->
  strip_comments (a ++ s) = a ++ strip_comments s.
Proof.
  induction 1 as [|x a Hx _ IH]; simpl; [reflexivity|].
  destruct (Ascii.eqb x comment_char) eqn:E.
  - apply Ascii.eqb_eq in E. contradiction.
  - rewrite IH. reflexivity.
Qed.

Lemma skip_comment_no_end (s : list ascii) :
  Forall (fun x => x <> end_of_comment) s -> skip_comment s = [].
Proof.
  induction 1 as [|x s Hx _ IH]; simpl; [reflexivity|].
  destruct (Ascii.eqb x end_of_comment) eqn:E.
  - apply Ascii.eqb_eq in E. contradiction.
  - exact IH.
Qed.

Lemma skip_comment_app (a s : list ascii) :
  Forall (fun x => x <> end_of_comment) a ->
  skip_comment (a ++ end_of_comment :: s) = end_of_comment :: strip_comments s.
Proof.
  induction 1 as [|x a Hx _ IH]; simpl.
  - reflexivity.
  - destruct (Ascii.eqb x end_of_comment) eqn:E.
    + apply Ascii.eqb_eq in E. contradiction.
    + exact IH.
Qed.

Lemma erase_middle (u v w : list ascii) (pos len : nat) :
  pos = length u -> len = length v -> erase (u ++ v ++ w) pos len = u ++ w.
Proof.
  intros -> ->. unfold erase.
  rewrite take_app_length, drop_app_add, drop_app_length. reflexivity.
Qed.

(** One turn of the loop of [delete_comments], with the marker at the
    position [length u]. *)
Lemma delete_comments_loop_marker (u b : list ascii) :
  delete_comments_loop (u ++ comment_char :: b) (Some (length u)) =
  match find b end_of_comment 0 with
  | None => u
  | Some k =>
      delete_comments_loop (u ++ drop k b)
        (find (u ++ drop k b) comment_char (length u))
  end.
Proof.
  rewrite delete_comments_loop_Some.
  replace (u ++ comment_char :: b) with ((u ++ [comment_char]) ++ b)
    by (rewrite <- app_assoc; reflexivity).
  replace (length u + 1) with (length (u ++ [comment_char]))
    by (rewrite length_app; reflexivity).
  rewrite find_app_length.
  destruct (find b end_of_comment 0) as [k|] eqn:Hk; simpl.
  - apply find_0_Some in Hk as (c & d & -> & _ & <-).
    rewrite drop_app_length.
    replace ((u ++ [comment_char]) ++ c ++ end_of_comment :: d)
      with (u ++ (comment_char :: c) ++ end_of_comment :: d)
      by (rewrite <- app_assoc; reflexivity).
    rewrite erase_middle;
      [reflexivity | reflexivity | rewrite length_app; simpl; lia].
  - unfold substr. rewrite drop_0, <- app_assoc, take_app_length.
    reflexivity.
Qed.

(** The invariant of the loop of [delete_comments]: the text before [cc]
    holds no marker and is final, the text from [cc] on is still to be
    stripped. *)
Lemma delete_comments_loop_spec (n : nat) :
  forall p r : list ascii,
    length r <= n ->
    delete_comments_loop (p ++ r) (find (p ++ r) comment_char (length p))
    = p ++ strip_comments r.
Proof.
  induction n as [|n IH]; intros p r Hn; rewrite find_app_length.
  - destruct r; [|simpl in Hn; lia].
    simpl. simp delete_comments_loop. reflexivity.
  - destruct (find r comment_char 0) as [j|] eqn:Hj; simpl.
    + apply find_0_Some in Hj as (a & b & -> & Ha & <-).
      rewrite strip_comments_app by exact Ha. simpl.
      rewrite app_assoc, <- length_app, delete_comments_loop_marker.
      destruct (find b end_of_comment 0) as [k|] eqn:Hk.
      * apply find_0_Some in Hk as (c & d & -> & Hc & <-).
        rewrite skip_comment_app by exact Hc.
        rewrite drop_app_length, IH.
        -- simpl. rewrite <- app_assoc. reflexivity.
        -- rewrite !length_app in Hn. simpl in Hn.
           rewrite length_app in Hn. simpl in *. lia.
      * rewrite skip_comment_no_end by (apply find_0_None, Hk).
        rewrite app_nil_r. reflexivity.
    + simp delete_comments_loop.
      rewrite strip_comments_no_marker by (apply find_0_None, Hj).
      reflexivity.
Qed.

Lemma delete_comments_strip (s : list ascii) :
  delete_comments s = strip_comments s.
Proof.
  unfold delete_comments.
  exact (delete_comments_loop_spec (length s) [] s (le_n _)).
Qed.

Lemma comment_char_not_nl : comment_char <> nl.
Proof. discriminate. Qed.

Lemma strip_skip_no_marker (s : list ascii) :
  Forall (fun x => x <> comment_char) (strip_comments s) /\
  Forall (fun x => x <> comment_char) (skip_comment s).
Proof.
  induction s as [|c r [IH1 IH2]]; simpl; [split; constructor|].
  split.
  - destruct (Ascii.eqb c comment_char) eqn:E; [exact IH2|].
    constructor; [apply eqb_false_ne, E | exact IH1].
  - destruct (Ascii.eqb c end_of_comment) eqn:E; [|exact IH2].
    apply Ascii.eqb_eq in E. subst c.
    constructor; [intros H; symmetry in H; revert H; apply comment_char_not_nl
                 | exact IH1].
Qed.

Lemma strip_skip_newlines (s : list ascii) :
  count_occ ascii_dec (strip_comments s) nl = count_occ ascii_dec s nl /\
  count_occ ascii_dec (skip_comment s) nl = count_occ ascii_dec s nl.
Proof.
  induction s as [|c r [IH1 IH2]]; simpl; [split; reflexivity|].
  split.
  - destruct (Ascii.eqb c comment_char) eqn:E.
    + apply Ascii.eqb_eq in E. subst c.
      destruct (ascii_dec comment_char nl) as [H|_]; [discriminate H|].
      exact IH2.
    + simpl. destruct (ascii_dec c nl); rewrite IH1; reflexivity.
  - destruct (Ascii.eqb c end_of_comment) eqn:E.
    + apply Ascii.eqb_eq in E. subst c. simpl.
      destruct (ascii_dec end_of_comment nl) as [_|H]; [|contradiction H; reflexivity].
      rewrite IH1. reflexivity.
    + apply eqb_false_ne in E.
      destruct (ascii_dec c nl) as [H|_]; [contradiction|]. exact IH2.
Qed.

(** ** Unsigned arithmetic *)

Lemma uint_idem (a : Z) : uint (uint a) = uint a.
Proof. unfold uint. apply Z.mod_mod. lia. Qed.

Lemma uint_add_l (a b : Z) : uint (uint a + b) = uint (a + b).
Proof. unfold uint. apply Zplus_mod_idemp_l. Qed.

Lemma uint_add_r (a b : Z) : uint (a + uint b) = uint (a + b).
Proof. unfold uint. apply Zplus_mod_idemp_r. Qed.

Lemma uint_sub (a b : Z) : uint (uint a - uint b) = uint (a - b).
Proof. unfold uint. symmetry. apply Zminus_mod. Qed.

Lemma uint_small (a : Z) : (0 <= a <= UINT_MAX)%Z -> uint a = a.
Proof. unfold uint, UINT_MAX. intros H. apply Z.mod_small. lia. Qed.

Lemma count_chars_from (s : list ascii) (c : ascii) (a : Z) :
  fold_left (fun count x => if Ascii.eqb x c then uint (count + 1) else count)
    s (uint a)
  = uint (a + Z.of_nat (count_occ ascii_dec s c)).
Proof.
  revert a. induction s as [|x s IH]; intros a; simpl.
  - rewrite Z.add_0_r. reflexivity.
  - destruct (Ascii.eqb x c) eqn:E.
    + apply Ascii.eqb_eq in E. subst x.
      destruct (ascii_dec c c) as [_|H]; [|contradiction H; reflexivity].
      rewrite uint_add_l, IH. f_equal. lia.
    + apply eqb_false_ne in E.
      destruct (ascii_dec x c) as [H|_]; [contradiction|]. apply IH.
Qed.

Lemma count_chars_newlines (s : list ascii) :
  count_chars s nl = uint (newlines s).
Proof.
  unfold count_chars, newlines.
  change 0%Z with (uint 0). rewrite count_chars_from. reflexivity.
Qed.

(** ** Reading a stream item by item *)

Lemma read_until_length (d : ascii) (ss : list ascii) :
  length (snd (read_until d ss)) <= length ss.
Proof.
  induction ss as [|c r IH]; simpl; [lia|].
  destruct (Ascii.eqb c d); simpl; [lia|].
  destruct (read_until d r); simpl in *; lia.
Qed.

Lemma getlines_read_until (d : ascii) (c : ascii) (r : list ascii) :
  getlines d (c :: r)
  = fst (read_until d (c :: r)) :: getlines d (snd (read_until d (c :: r))).
Proof.
  revert c. induction r as [|x r IH]; intros c; simpl.
  - destruct (Ascii.eqb c d); reflexivity.
  - destruct (Ascii.eqb c d) eqn:E; [reflexivity|].
    specialize (IH x). simpl in IH. rewrite IH.
    destruct (Ascii.eqb x d); simpl; [reflexivity|].
    destruct (read_until d r); reflexivity.
Qed.

Lemma while_getline_fold {St : Type} (d : ascii)
    (body : list ascii -> St -> St) (ss : list ascii) :
  forall st,
    while_getline d body ss st
    = fold_left (fun st item => body item st) (getlines d ss) st.
Proof.
  remember (length ss) as n eqn:Hn. revert ss Hn.
  induction n as [n IH] using lt_wf_ind. intros ss Hn st.
  rewrite while_getline_step.
  destruct ss as [|c r]; [reflexivity|].
  unfold getline. rewrite getlines_read_until.
  pose proof (read_until_length d r) as Hlen.
  assert (Hrest : length (snd (read_until d (c :: r))) < n).
  { subst n. simpl. destruct (Ascii.eqb c d); simpl; [lia|].
    destruct (read_until d r); simpl in *; lia. }
  destruct (read_until d (c :: r)) as [item rest]. simpl in *.
  apply (IH _ Hrest rest eq_refl).
Qed.

(** ** load_file *)

Lemma fold_left_lines (ls : list (list ascii)) (acc : list ascii) :
  fold_left (fun result line => result ++ line ++ [nl]) ls acc
  = acc ++ concat (map (fun line => line ++ [nl]) ls).
Proof.
  revert acc. induction ls as [|l ls IH]; intros acc; simpl.
  - rewrite app_nil_r. reflexivity.
  - rewrite IH, <- !app_assoc. reflexivity.
Qed.

Lemma load_file_lines (content : list ascii) :
  load_file (Some content)
  = OK (concat (map (fun line => line ++ [nl]) (getlines nl content))).
Proof.
  unfold load_file. f_equal. rewrite while_getline_fold.
  apply fold_left_lines.
Qed.

Lemma last_cons_cons {A : Type} (x y : A) (l : list A) :
  last (x :: y :: l) = last (y :: l).
Proof. reflexivity. Qed.

Lemma lines_cons (c : ascii) (r : list ascii) :
  concat (map (fun line => line ++ [nl]) (getlines nl (c :: r)))
  = c :: (if Ascii.eqb c nl
          then concat (map (fun line => line ++ [nl]) (getlines nl r))
          else match r with
               | [] => [nl]
               | _ :: _ =>
                   concat (map (fun line => line ++ [nl]) (getlines nl r))
               end).
Proof.
  simpl getlines. destruct (Ascii.eqb c nl) eqn:E.
  - apply Ascii.eqb_eq in E. subst c. reflexivity.
  - destruct r as [|x r]; [reflexivity|].
    rewrite getlines_read_until. reflexivity.
Qed.

Lemma lines_terminated (s : list ascii) :
  concat (map (fun line => line ++ [nl]) (getlines nl s))
  = s ++ missing_terminator s.
Proof.
  unfold missing_terminator.
  induction s as [|c r IH]; [reflexivity|].
  rewrite lines_cons. destruct r as [|x r].
  - simpl. destruct (Ascii.eqb c nl); reflexivity.
  - rewrite last_cons_cons, IH.
    destruct (Ascii.eqb c nl); reflexivity.
Qed.

Lemma last_app_missing_terminator (s : list ascii) :
  s <> [] -> last (s ++ missing_terminator s) = Some nl.
Proof.
  intros Hs. unfold missing_terminator.
  destruct (last s) as [c|] eqn:Hl.
  - destruct (Ascii.eqb c nl) eqn:E.
    + apply Ascii.eqb_eq in E. subst c. rewrite app_nil_r. exact Hl.
    + apply last_snoc.
  - apply last_None in Hl. contradiction.
Qed.

(** ** Trimming *)

Lemma ltrim_app (s t : list ascii) :
  ltrim (s ++ t) = match ltrim s with [] => ltrim t | _ :: _ => ltrim s ++ t end.
Proof.
  induction s as [|c s IH]; simpl.
  - destruct (ltrim t); reflexivity.
  - destruct (isspace c); [exact IH | reflexivity].
Qed.

Lemma rtrim_app (t u : list ascii) :
  rtrim (t ++ u) = match rtrim u with [] => rtrim t | _ :: _ => t ++ rtrim u end.
Proof.
  unfold rtrim. rewrite rev_app_distr, ltrim_app.
  destruct (ltrim (rev u)) as [|x w] eqn:E; [reflexivity|].
  destruct (rev (x :: w)) eqn:E2.
  - apply (f_equal (@length ascii)) in E2. rewrite length_rev in E2.
    discriminate E2.
  - rewrite <- E2, rev_app_distr, rev_involutive. reflexivity.
Qed.

Lemma rtrim_nil : rtrim [] = [].
Proof. reflexivity. Qed.

Lemma rtrim_singleton (c : ascii) :
  rtrim [c] = if isspace c then [] else [c].
Proof. unfold rtrim. simpl. destruct (isspace c); reflexivity. Qed.

Lemma rtrim_cons (c : ascii) (r : list ascii) :
  rtrim (c :: r)
  = match rtrim r with
    | [] => if isspace c then [] else [c]
    | _ :: _ => c :: rtrim r
    end.
Proof.
  change (c :: r) with ([c] ++ r). rewrite rtrim_app, rtrim_singleton.
  reflexivity.
Qed.

(** Trimming on the left and then on the right, as the loop does, is
    trimming on both sides. *)
Lemma rtrim_ltrim (s : list ascii) : rtrim (ltrim s) = trim s.
Proof.
  unfold trim. induction s as [|c r IH]; [reflexivity|].
  simpl ltrim at 1. destruct (isspace c) eqn:E.
  - rewrite IH, rtrim_cons, E.
    destruct (rtrim r) as [|x w]; [reflexivity|].
    simpl. rewrite E. reflexivity.
  - rewrite rtrim_cons, E.
    destruct (rtrim r) as [|x w]; simpl; rewrite E; reflexivity.
Qed.

Lemma leading_spaces_ltrim (s : list ascii) :
  leading_spaces s ++ ltrim s = s.
Proof.
  induction s as [|c r IH]; simpl; [reflexivity|].
  destruct (isspace c); simpl; [rewrite IH|]; reflexivity.
Qed.

(** ** Counting line terminators *)

Lemma newlines_app (a b : list ascii) :
  newlines (a ++ b) = (newlines a + newlines b)%Z.
Proof. unfold newlines. rewrite count_occ_app. lia. Qed.

Lemma newlines_nonneg (s : list ascii) : (0 <= newlines s)%Z.
Proof. unfold newlines. lia. Qed.

Lemma newlines_leading (s : list ascii) :
  (newlines s - newlines (ltrim s))%Z = newlines (leading_spaces s).
Proof.
  rewrite <- (leading_spaces_ltrim s) at 1. rewrite newlines_app. lia.
Qed.

Lemma newlines_leading_le (s : list ascii) :
  (0 <= newlines (leading_spaces s) <= newlines s)%Z.
Proof.
  pose proof (newlines_leading s). pose proof (newlines_nonneg (ltrim s)).
  pose proof (newlines_nonneg (leading_spaces s)). lia.
Qed.

(** ** separate_commands *)

Lemma number_commands_cons (line : Z) (seg : list ascii)
    (rest : list (list ascii)) :
  number_commands line (seg :: rest)
  = number_commands line [seg]
    ++ number_commands (line + newlines seg) rest.
Proof. simpl. destruct (trim seg); reflexivity. Qed.

Lemma separate_body_spec (item : list ascii) (line : Z)
    (result : list (Z * list ascii)) :
  separate_body item (uint line, result)
  = (uint (line + newlines item),
     result ++ map stored (number_commands line [item])).
Proof.
  unfold separate_body. rewrite !count_chars_newlines, rtrim_ltrim.
  f_equal.
  - rewrite uint_add_l, uint_add_r. reflexivity.
  - simpl. destruct (trim item) as [|x w]; simpl.
    + rewrite app_nil_r. reflexivity.
    + unfold stored. simpl.
      rewrite uint_sub, newlines_leading, uint_add_l, !uint_add_r.
      reflexivity.
Qed.

Lemma separate_fold (items : list (list ascii)) :
  forall (line : Z) (result : list (Z * list ascii)),
    snd (fold_left (fun st item => separate_body item st) items
           (uint line, result))
    = result ++ map stored (number_commands line items).
Proof.
  induction items as [|item items IH]; intros line result.
  - simpl. rewrite app_nil_r. reflexivity.
  - cbn [fold_left]. rewrite separate_body_spec, IH.
    rewrite (number_commands_cons line item items), map_app, app_assoc.
    reflexivity.
Qed.

Lemma number_commands_app (a b : list (list ascii)) :
  forall line,
    number_commands line (a ++ b)
    = number_commands line a
      ++ number_commands (line + fold_right Z.add 0%Z (map newlines a)) b.
Proof.
  induction a as [|seg a IH]; intros line.
  - simpl. rewrite Z.add_0_r. reflexivity.
  - rewrite <- app_comm_cons, number_commands_cons, IH.
    rewrite (number_commands_cons line seg a), <- app_assoc.
    simpl. rewrite Z.add_assoc. reflexivity.
Qed.

Lemma split_on_getlines (d : ascii) (s : list ascii) :
  split_on d s = getlines d s \/ split_on d s = getlines d s ++ [[]].
Proof.
  induction s as [|c r IH]; simpl; [right; reflexivity|].
  destruct (Ascii.eqb c d).
  - destruct IH as [-> | ->]; [left | right]; reflexivity.
  - destruct IH as [-> | ->].
    + left. reflexivity.
    + destruct (getlines d r); [left | right]; reflexivity.
Qed.

Lemma number_commands_getlines (line : Z) (s : list ascii) :
  number_commands line (getlines cmd_separator s)
  = number_commands line (split_on cmd_separator s).
Proof.
  destruct (split_on_getlines cmd_separator s) as [-> | ->]; [reflexivity|].
  rewrite number_commands_app. simpl. rewrite app_nil_r. reflexivity.
Qed.

(** The commands of the code are the commands of the spec, with the line
    numbers as an [unsigned int] stores them. *)
Lemma separate_commands_stored (s : list ascii) :
  separate_commands s = map stored (split_commands s).
Proof.
  unfold separate_commands, split_commands.
  rewrite while_getline_fold.
  change (1%Z, @nil (Z * list ascii)) with (uint 1, @nil (Z * list ascii)).
  rewrite separate_fold, number_commands_getlines. reflexivity.
Qed.

(** ** Line numbers *)

Lemma newlines_cons (c : ascii) (r : list ascii) :
  newlines (c :: r)
  = ((if Ascii.eqb c nl then 1 else 0) + newlines r)%Z.
Proof.
  unfold newlines. simpl. destruct (ascii_dec c nl) as [->|H].
  - rewrite Ascii.eqb_refl. lia.
  - destruct (Ascii.eqb c nl) eqn:E; [|lia].
    apply Ascii.eqb_eq in E. contradiction.
Qed.

Lemma total_newlines_split_on (d : ascii) (s : list ascii) :
  d <> nl -> total_newlines (split_on d s) = newlines s.
Proof.
  intros Hd. unfold total_newlines.
  induction s as [|c r IH]; [reflexivity|].
  rewrite newlines_cons. simpl split_on.
  destruct (Ascii.eqb c d) eqn:E.
  - apply Ascii.eqb_eq in E. subst c.
    destruct (Ascii.eqb d nl) eqn:E2;
      [apply Ascii.eqb_eq in E2; contradiction|].
    simpl. rewrite IH. reflexivity.
  - destruct (split_on d r) as [|seg segs]; simpl in *.
    + rewrite newlines_cons, <- IH. change (newlines []) with 0%Z. lia.
    + rewrite newlines_cons, <- IH. lia.
Qed.

Lemma total_newlines_nonneg (segs : list (list ascii)) :
  (0 <= total_newlines segs)%Z.
Proof.
  unfold total_newlines. induction segs as [|seg segs IH]; simpl; [lia|].
  pose proof (newlines_nonneg seg). lia.
Qed.

Lemma number_commands_bounds (segs : list (list ascii)) :
  forall line,
    Forall (fun cmd => (line <= fst cmd <= line + total_newlines segs)%Z)
      (number_commands line segs).
Proof.
  induction segs as [|seg segs IH]; intros line; [constructor|].
  pose proof (newlines_leading_le seg) as Hl.
  pose proof (total_newlines_nonneg segs) as Ht.
  assert (Hrest : Forall (fun cmd =>
            (line <= fst cmd <= line + total_newlines (seg :: segs))%Z)
            (number_commands (line + newlines seg) segs)).
  { eapply Forall_impl; [apply IH|]. unfold total_newlines. simpl.
    intros cmd H. fold (total_newlines segs) in *. lia. }
  simpl number_commands. destruct (trim seg); [exact Hrest|].
  constructor; [|exact Hrest].
  unfold total_newlines. simpl. fold (total_newlines segs). lia.
Qed.

Lemma number_commands_sorted (segs : list (list ascii)) :
  forall line,
    StronglySorted Z.le (map fst (number_commands line segs)).
Proof.
  induction segs as [|seg segs IH]; intros line; [constructor|].
  simpl number_commands. destruct (trim seg); [apply IH|].
  simpl. constructor; [apply IH|].
  pose proof (number_commands_bounds segs (line + newlines seg)) as Hb.
  pose proof (newlines_leading_le seg) as Hl.
  rewrite Forall_map. eapply Forall_impl; [exact Hb|].
  intros cmd H. simpl in *. lia.
Qed.

Lemma number_commands_texts (segs : list (list ascii)) :
  forall line,
    map snd (number_commands line segs)
    = filter (fun cmd => cmd <> []) (map trim segs).
Proof.
  induction segs as [|seg segs IH]; intros line; [reflexivity|].
  simpl number_commands. simpl map. rewrite filter_cons.
  destruct (trim seg) as [|x w] eqn:E.
  - rewrite decide_False by (intros H; apply H; reflexivity). apply IH.
  - rewrite decide_True by discriminate. simpl. rewrite IH. reflexivity.
Qed.

Lemma map_stored_small (cmds : list (Z * list ascii)) :
  Forall (fun cmd => (0 <= fst cmd <= UINT_MAX)%Z) cmds ->
  map stored cmds = cmds.
Proof.
  induction 1 as [|[l t] cmds H _ IH]; simpl; [reflexivity|].
  unfold stored at 1. simpl in *. rewrite uint_small by exact H.
  rewrite IH. reflexivity.
Qed.

Lemma map_stored_texts (cmds : list (Z * list ascii)) :
  map snd (map stored cmds) = map snd cmds.
Proof. rewrite map_map. reflexivity. Qed.

Lemma cmd_separator_not_nl : cmd_separator <> nl.
Proof. discriminate. Qed.

Lemma split_commands_bounds (s : list ascii) :
  Forall (fun cmd => (1 <= fst cmd <= 1 + newlines s)%Z) (split_commands s).
Proof.
  unfold split_commands.
  rewrite <- (total_newlines_split_on cmd_separator s cmd_separator_not_nl).
  apply number_commands_bounds.
Qed.

(** Below [UINT_MAX] line terminators no line counter wraps. *)
Lemma separate_commands_exact (s : list ascii) :
  (newlines s < UINT_MAX)%Z -> separate_commands s = split_commands s.
Proof.
  intros Hs. rewrite separate_commands_stored. apply map_stored_small.
  eapply Forall_impl; [apply split_commands_bounds|].
  intros cmd H. simpl in *. lia.
Qed.

(** ** Texts that begin with many empty lines *)

Lemma split_on_no_separator (d : ascii) (s : list ascii) :
  Forall (fun x => x <> d) s -> split_on d s = [s].
Proof.
  induction 1 as [|x s Hx _ IH]; simpl; [reflexivity|].
  destruct (Ascii.eqb x d) eqn:E;
    [apply Ascii.eqb_eq in E; contradiction|].
  rewrite IH. reflexivity.
Qed.

Lemma ltrim_blank_lines (n : nat) (t : list ascii) :
  ltrim (repeat nl n ++ t) = ltrim t.
Proof. induction n as [|n IH]; simpl; [reflexivity | exact IH]. Qed.

Lemma leading_spaces_blank_lines (n : nat) (c : ascii) :
  isspace c = false -> leading_spaces (repeat nl n ++ [c]) = repeat nl n.
Proof.
  intros Hc. induction n as [|n IH]; simpl.
  - rewrite Hc. reflexivity.
  - rewrite IH. reflexivity.
Qed.

Lemma newlines_blank_lines (n : nat) : newlines (repeat nl n) = Z.of_nat n.
Proof. unfold newlines. rewrite count_occ_repeat_eq; reflexivity. Qed.

Lemma trim_blank_lines (n : nat) (c : ascii) :
  isspace c = false -> trim (repeat nl n ++ [c]) = [c].
Proof.
  intros Hc. unfold trim.
  rewrite rtrim_app, rtrim_singleton, Hc, ltrim_blank_lines.
  simpl. rewrite Hc. reflexivity.
Qed.

Lemma number_commands_blank_lines (line : Z) (n : nat) (c : ascii) :
  isspace c = false ->
  number_commands line [repeat nl n ++ [c]] = [((line + Z.of_nat n)%Z, [c])].
Proof.
  intros Hc. simpl.
  rewrite trim_blank_lines, leading_spaces_blank_lines, newlines_blank_lines
    by exact Hc.
  reflexivity.
Qed.

Lemma blank_lines_no_separator (n : nat) (c : ascii) :
  c <> cmd_separator ->
  Forall (fun x => x <> cmd_separator) (repeat nl n ++ [c]).
Proof.
  intros Hc. apply Forall_app. split.
  - induction n; simpl; constructor; [discriminate | assumption].
  - constructor; [exact Hc | constructor].
Qed.

(** A command that follows [n] empty lines. *)
Lemma split_commands_blank_lines (n : nat) (c : ascii) :
  isspace c = false -> c <> cmd_separator ->
  split_commands (repeat nl n ++ [c]) = [((1 + Z.of_nat n)%Z, [c])].
Proof.
  intros Hs Hc. unfold split_commands.
  rewrite split_on_no_separator by (apply blank_lines_no_separator, Hc).
  apply number_commands_blank_lines, Hs.
Qed.

(** A command, and a second one [n] lines below it. *)
Lemma split_commands_two (n : nat) (a c : ascii) :
  isspace a = false -> a <> cmd_separator -> a <> nl ->
  isspace c = false -> c <> cmd_separator ->
  split_commands (a :: cmd_separator :: repeat nl n ++ [c])
  = [(1%Z, [a]); ((1 + Z.of_nat n)%Z, [c])].
Proof.
  intros Has Ha Hanl Hs Hc. unfold split_commands.
  simpl split_on.
  destruct (Ascii.eqb a cmd_separator) eqn:E;
    [apply Ascii.eqb_eq in E; contradiction|].
  rewrite split_on_no_separator by (apply blank_lines_no_separator, Hc).
  rewrite number_commands_cons, number_commands_blank_lines by exact Hs.
  simpl. unfold trim, rtrim. simpl. rewrite Has. simpl. rewrite Has.
  unfold newlines. simpl.
  destruct (ascii_dec a nl) as [H|_]; [contradiction|].
  reflexivity.
Qed.

(** ** The splitter: the claims *)

(** C2.  For every input text, [delete_comments] removes exactly the spans
    from each comment marker ['#'] up to, and not including, the next line
    terminator; a marker with no line terminator after it takes the rest
    of the input with it; text with no marker is left as it is.  A span
    may hold further markers, and the text after the kept terminator may
    begin with one: the scan resumes at the position of the removal.
    The first part states the same against [strip_comments], the spec's
    own description of the operation. *)
Theorem delete_comments_removes_spans :
  (forall s, delete_comments s = strip_comments s) /\
  (forall a b c,
     Forall (fun x => x <> comment_char) a ->
     Forall (fun x => x <> end_of_comment) b ->
     delete_comments (a ++ comment_char :: b ++ end_of_comment :: c)
     = a ++ end_of_comment :: delete_comments c) /\
  (forall a b,
     Forall (fun x => x <> comment_char) a ->
     Forall (fun x => x <> end_of_comment) b ->
     delete_comments (a ++ comment_char :: b) = a) /\
  (forall a,
     Forall (fun x => x <> comment_char) a -> delete_comments a = a).
Proof.
  split; [exact delete_comments_strip|].
  split; [|split].
  - intros a b c Ha Hb. rewrite !delete_comments_strip.
    rewrite strip_comments_app by exact Ha. simpl.
    rewrite skip_comment_app by exact Hb. reflexivity.
  - intros a b Ha Hb. rewrite delete_comments_strip.
    rewrite strip_comments_app by exact Ha. simpl.
    rewrite skip_comment_no_end by exact Hb. apply app_nil_r.
  - intros a Ha. rewrite delete_comments_strip.
    apply strip_comments_no_marker, Ha.
Qed.

(** C3.  Comment deletion is idempotent: deleting the comments of a text
    whose comments were deleted changes nothing. *)
Theorem delete_comments_idempotent (s : list ascii) :
  delete_comments (delete_comments s) = delete_comments s.
Proof.
  rewrite (delete_comments_strip s), delete_comments_strip.
  apply strip_comments_no_marker, strip_skip_no_marker.
Qed.

Lemma read_until_cons (d c : ascii) (r : list ascii) :
  fst (read_until d (c :: r))
  = if Ascii.eqb c d then [] else c :: fst (read_until d r).
Proof.
  simpl. destruct (Ascii.eqb c d); [reflexivity|].
  destruct (read_until d r). reflexivity.
Qed.

Lemma split_on_cons (d c : ascii) (r : list ascii) :
  split_on d (c :: r)
  = if Ascii.eqb c d then [] :: split_on d r
    else match split_on d r with
         | seg :: segs => (c :: seg) :: segs
         | [] => [[c]]
         end.
Proof. reflexivity. Qed.

(** The lines of the stripped text, against the lines of the text: outside
    a comment each line is cut at its marker; inside one the rest of the
    line is dropped and the lines after it are cut at their markers. *)
Lemma strip_skip_lines (s : list ascii) :
  split_on nl (strip_comments s)
  = map (fun line => fst (read_until comment_char line)) (split_on nl s) /\
  split_on nl (skip_comment s)
  = [] :: map (fun line => fst (read_until comment_char line))
            (tail (split_on nl s)).
Proof.
  induction s as [|c r [IH1 IH2]]; [split; reflexivity|].
  assert (Hne : split_on nl r <> []).
  { destruct r as [|x r']; simpl; [discriminate|].
    destruct (Ascii.eqb x nl); [discriminate|].
    destruct (split_on nl r'); discriminate. }
  destruct (split_on nl r) as [|l0 ls] eqn:Es; [contradiction|].
  rewrite !split_on_cons, Es.
  split.
  - simpl strip_comments. destruct (Ascii.eqb c comment_char) eqn:Em.
    + apply Ascii.eqb_eq in Em. subst c. rewrite IH2.
      change (Ascii.eqb comment_char nl) with false.
      cbn [map tail]. rewrite read_until_cons, Ascii.eqb_refl. reflexivity.
    + rewrite split_on_cons, IH1. destruct (Ascii.eqb c nl) eqn:En.
      * reflexivity.
      * cbn [map]. rewrite read_until_cons, Em. reflexivity.
  - simpl skip_comment. unfold end_of_comment.
    destruct (Ascii.eqb c nl) eqn:En.
    + rewrite split_on_cons, En, IH1. reflexivity.
    + rewrite IH2. reflexivity.
Qed.

(** C8.  [delete_comments] keeps every line terminator, each in its line:
    the output holds as many ['\n'] as the input (counted as a number and
    counted by [count_chars]), and line [k] of the output is line [k] of
    the input up to its first ['#'].  A text that survives is therefore on
    the line it had in the file, and a line number counted after the
    comments are deleted is the line number of the file. *)
Theorem delete_comments_keeps_newlines (s : list ascii) :
  newlines (delete_comments s) = newlines s /\
  count_chars (delete_comments s) nl = count_chars s nl /\
  split_on nl (delete_comments s)
  = map (fun line => fst (read_until comment_char line)) (split_on nl s) /\
  (forall a b,
     s = a ++ b ->
     exists b',
       delete_comments s = delete_comments a ++ b' /\
       newlines (delete_comments a) = newlines a).
Proof.
  assert (H : forall t, newlines (delete_comments t) = newlines t).
  { intros t. unfold newlines. rewrite delete_comments_strip.
    f_equal. apply strip_skip_newlines. }
  split; [apply H|].
  split; [rewrite !count_chars_newlines, H; reflexivity|].
  split; [rewrite delete_comments_strip; apply strip_skip_lines|].
  intros a b ->. rewrite !delete_comments_strip.
  assert (Happ : forall a,
            (exists b', strip_comments (a ++ b) = strip_comments a ++ b') /\
            (exists b', skip_comment (a ++ b) = skip_comment a ++ b')).
  { clear a. induction a as [|c r [[b1 IH1] [b2 IH2]]]; simpl.
    - split; eexists; reflexivity.
    - split.
      + destruct (Ascii.eqb c comment_char);
          [exists b2; exact IH2 | exists b1; rewrite IH1; reflexivity].
      + destruct (Ascii.eqb c end_of_comment);
          [exists b1; rewrite IH1; reflexivity | exists b2; exact IH2]. }
  destruct (Happ a) as [[b' Hb] _]. exists b'. split; [exact Hb|].
  rewrite <- delete_comments_strip. apply H.
Qed.

(** C10.  For a file that can be read and is not empty, [load_file] returns
    the lines of the file, each one followed by ['\n']: the content of the
    file, with the terminator its last line lacks appended; the returned
    text ends in ['\n']. *)
Theorem load_file_terminates_lines (content : list ascii) :
  content <> [] ->
  exists out,
    load_file (Some content) = OK out /\
    out = concat (map (fun line => line ++ [nl]) (getlines nl content)) /\
    out = content ++ missing_terminator content /\
    last out = Some nl.
Proof.
  intros Hc. exists (content ++ missing_terminator content).
  rewrite load_file_lines, lines_terminated.
  repeat split. apply last_app_missing_terminator, Hc.
Qed.

Lemma load_file_terminates_lines_witness :
  exists out,
    load_file (Some (str "protocol IGMPv3;")) = OK out /\
    out = concat (map (fun line => line ++ [nl])
                    (getlines nl (str "protocol IGMPv3;"))) /\
    out = str "protocol IGMPv3;" ++ missing_terminator (str "protocol IGMPv3;") /\
    last out = Some nl.
Proof.
  apply (load_file_terminates_lines (str "protocol IGMPv3;")). discriminate.
Defined.

(** C4, as the code has it.  For every text with fewer than [UINT_MAX]
    line terminators, [separate_commands] returns the segments between the
    separators that are not empty once trimmed, trimmed and in the order of
    the text, each with the running line counter (from 1) plus the line
    terminators trimmed from its front, the counter advancing by the line
    terminators of the whole segment: the commands of [split_commands]. *)
Theorem separate_commands_numbered (s : list ascii) :
  (newlines s < UINT_MAX)%Z -> separate_commands s = split_commands s.
Proof.
  intros Hs. rewrite separate_commands_stored. apply map_stored_small.
  pose proof (split_commands_bounds s) as Hb.
  rewrite Forall_forall in Hb. apply Forall_forall. intros cmd Hin.
  specialize (Hb cmd Hin). simpl in Hb. lia.
Qed.

Lemma separate_commands_numbered_witness :
  separate_commands (nl :: str "a;" ++ nl :: nl :: str " b ;c")
  = split_commands (nl :: str "a;" ++ nl :: nl :: str " b ;c").
Proof.
  apply (separate_commands_numbered
           (nl :: str "a;" ++ nl :: nl :: str " b ;c")).
  reflexivity.
Defined.

(** C4 as it is stated fails: after [2^32] empty lines the counter of the
    code has wrapped, and the command on line [2^32 + 1] is given line 1. *)
Lemma separate_commands_line_wraps :
  separate_commands (repeat nl (Z.to_nat (2 ^ 32)) ++ str "x")
  = [(1%Z, str "x")] /\
  split_commands (repeat nl (Z.to_nat (2 ^ 32)) ++ str "x")
  = [(4294967297%Z, str "x")].
Proof.
  change (str "x") with ["x"].
  rewrite separate_commands_stored.
  rewrite split_commands_blank_lines by (reflexivity || discriminate).
  rewrite Z2Nat.id by lia. split; reflexivity.
Qed.

(** C9, as the code has it.  For every text with fewer than [UINT_MAX]
    line terminators, the line numbers of [separate_commands] never
    decrease along the output and each is at least 1; for every text, the
    commands come in the order of their segments in the text. *)
Theorem separate_commands_lines_sorted (s : list ascii) :
  ((newlines s < UINT_MAX)%Z ->
   StronglySorted Z.le (map fst (separate_commands s)) /\
   Forall (fun line => (1 <= line)%Z) (map fst (separate_commands s))) /\
  map snd (separate_commands s)
  = filter (fun cmd => cmd <> []) (map trim (split_on cmd_separator s)).
Proof.
  split.
  - intros Hs. rewrite separate_commands_exact by exact Hs.
    unfold split_commands. split; [apply number_commands_sorted|].
    rewrite Forall_map. eapply Forall_impl; [apply split_commands_bounds|].
    intros cmd H. simpl in H. lia.
  - rewrite separate_commands_stored, map_stored_texts.
    apply number_commands_texts.
Qed.

Lemma separate_commands_lines_sorted_witness :
  (StronglySorted Z.le
     (map fst (separate_commands (str "a ;" ++ nl :: str "b;"))) /\
   Forall (fun line => (1 <= line)%Z)
     (map fst (separate_commands (str "a ;" ++ nl :: str "b;")))) /\
  map snd (separate_commands (str "a ;" ++ nl :: str "b;"))
  = filter (fun cmd => cmd <> [])
      (map trim (split_on cmd_separator (str "a ;" ++ nl :: str "b;"))).
Proof.
  destruct (separate_commands_lines_sorted (str "a ;" ++ nl :: str "b;"))
    as [Hlines Horder].
  split; [apply Hlines; reflexivity | exact Horder].
Defined.

(** C9 as it is stated fails: a command that follows [UINT_MAX] line
    terminators is given line 0, below the line 1 of the command before
    it. *)
Lemma separate_commands_line_decreases :
  separate_commands (str "a;" ++ repeat nl (Z.to_nat UINT_MAX) ++ str "b")
  = [(1%Z, str "a"); (0%Z, str "b")].
Proof.
  change (str "a;" ++ repeat nl (Z.to_nat UINT_MAX) ++ str "b")
    with ("a" :: cmd_separator :: repeat nl (Z.to_nat UINT_MAX) ++ ["b"]).
  rewrite separate_commands_stored.
  rewrite split_commands_two by (reflexivity || discriminate).
  rewrite Z2Nat.id by (unfold UINT_MAX; lia). reflexivity.
Qed.

(** The checks of [test_configuration], as the source lists them. *)
Example delete_comments_test_1 :
  delete_comments (str "#1234" ++ nl :: str "1234") = nl :: str "1234".
Proof. reflexivity. Qed.

Example delete_comments_test_3 :
  delete_comments (str "#" ++ nl :: str "1234" ++ nl :: str "#1234")
  = nl :: str "1234" ++ [nl].
Proof. reflexivity. Qed.

Example delete_comments_test_7 :
  delete_comments (str "##" ++ nl :: str "1234") = nl :: str "1234".
Proof. reflexivity. Qed.

Example delete_comments_test_9 :
  delete_comments
    (str "#12#34" ++ nl :: str "#56#78#910" ++ nl :: nl :: nl :: str "1234#")
  = nl :: nl :: nl :: nl :: str "1234".
Proof. reflexivity. Qed.

Example separate_commands_test :
  separate_commands (str ";asd; ad; xx;;;")
  = [(1%Z, str "asd"); (1%Z, str "ad"); (1%Z, str "xx")].
Proof. reflexivity. Qed.

(** ** State and exceptions *)

Lemma for_each_cons_OK {St A : Type} (f : A -> M St unit) (e : A)
    (l : list A) (st st' : St) :
  f e st = (st', OK tt) -> for_each (e :: l) f st = for_each l f st'.
Proof. intros H. simpl. unfold bind. rewrite H. reflexivity. Qed.

Lemma for_each_cons_Throw {St A : Type} (f : A -> M St unit) (e : A)
    (l : list A) (st st' : St) (what : string) :
  f e st = (st', Throw what) -> for_each (e :: l) f st = (st', Throw what).
Proof. intros H. simpl. unfold bind. rewrite H. reflexivity. Qed.

Lemma for_each_app_OK {St A : Type} (f : A -> M St unit) (a b : list A) :
  forall st st',
    for_each a f st = (st', OK tt) ->
    for_each (a ++ b) f st = for_each b f st'.
Proof.
  induction a as [|e a IH]; intros st st' H; simpl in *.
  - unfold ret in H. injection H as <-. reflexivity.
  - unfold bind in *. destruct (f e st) as [st1 [[]|what]].
    + apply IH, H.
    + discriminate H.
Qed.

Lemma for_each_app_Throw {St A : Type} (f : A -> M St unit) (a b : list A) :
  forall st st' what,
    for_each a f st = (st', Throw what) ->
    for_each (a ++ b) f st = (st', Throw what).
Proof.
  induction a as [|e a IH]; intros st st' what H; simpl in *.
  - discriminate H.
  - unfold bind in *. destruct (f e st) as [st1 [[]|w]].
    + apply IH, H.
    + exact H.
Qed.

(** ** run_parser *)

Section RunParserProperties.
Context `{P : parser}.

Lemma set_global_table_set_same (c : configuration) :
  set_global_table_set (m_global_table_set c) c = c.
Proof. destruct c. reflexivity. Qed.

(** A protocol declaration is stored, whatever the protocol was. *)
Lemma run_parser_body_protocol (e : Z * list ascii)
    (gmp : group_mem_protocol) (c : configuration) :
  get_parser_type e = OK PT_PROTOCOL ->
  parse_group_mem_proto e = OK gmp ->
  run_parser_body e c = (set_gmp gmp c, OK tt).
Proof.
  intros Ht Hp. unfold run_parser_body. unfold_M. rewrite Ht, Hp.
  reflexivity.
Qed.

(** A table whose name is free is inserted. *)
Lemma run_parser_body_table_new (e : Z * list ascii) (t : table)
    (c : configuration) :
  get_parser_type e = OK PT_TABLE ->
  parse_table e (m_global_table_set c) (m_gmp c) = OK t ->
  m_global_table_set c !! get_name t = None ->
  run_parser_body e c
  = (set_global_table_set (<[get_name t := t]> (m_global_table_set c)) c,
     OK tt).
Proof.
  intros Ht Hp Hn. unfold run_parser_body, global_table_set_insert.
  unfold_M. rewrite Ht, Hp, Hn. reflexivity.
Qed.

(** A table whose name is taken is refused, and the set is left alone. *)
Lemma run_parser_body_table_exists (e : Z * list ascii) (t t0 : table)
    (c : configuration) :
  get_parser_type e = OK PT_TABLE ->
  parse_table e (m_global_table_set c) (m_gmp c) = OK t ->
  m_global_table_set c !! get_name t = Some t0 ->
  run_parser_body e c = (c, Throw "failed to parse configfile").
Proof.
  intros Ht Hp Hn. unfold run_parser_body, global_table_set_insert.
  unfold_M. rewrite Ht, Hp, Hn. rewrite set_global_table_set_same.
  reflexivity.
Qed.

(** No command takes a table out of the Table Set, or replaces one. *)
Lemma run_parser_body_keeps_tables (e : Z * list ascii)
    (c : configuration) (name : string) (t : table) :
  m_global_table_set c !! name = Some t ->
  m_global_table_set (fst (run_parser_body e c)) !! name = Some t.
Proof.
  intros Hn. unfold run_parser_body, global_table_set_insert. unfold_M.
  destruct (get_parser_type e) as [[| | | |]|what]; simpl; try exact Hn.
  - destruct (parse_group_mem_proto e); simpl; exact Hn.
  - destruct (parse_instance_definition e (m_inst_def_set c)) as [ids r].
    simpl. exact Hn.
  - destruct (parse_table e (m_global_table_set c) (m_gmp c)) as [t'|what];
      simpl; [|exact Hn].
    destruct (m_global_table_set c !! get_name t') eqn:E; simpl; [exact Hn|].
    rewrite lookup_insert_ne; [exact Hn|].
    intros Heq. rewrite Heq in E. rewrite E in Hn. discriminate Hn.
  - destruct (parse_interface_rule_binding e (m_global_table_set c) (m_gmp c)
                (m_inst_def_set c)) as [ids r].
    simpl. exact Hn.
Qed.

Lemma run_commands_keeps_tables (cmds : list (Z * list ascii)) :
  forall (c : configuration) (name : string) (t : table),
    m_global_table_set c !! name = Some t ->
    m_global_table_set (fst (run_commands cmds c)) !! name = Some t.
Proof.
  unfold run_commands.
  induction cmds as [|e cmds IH]; intros c name t Hn; simpl; [exact Hn|].
  pose proof (run_parser_body_keeps_tables e c name t Hn) as Hstep.
  unfold bind. destruct (run_parser_body e c) as [c1 [[]|what]]; simpl in *.
  - apply IH, Hstep.
  - exact Hstep.
Qed.

(** The parser has no hand on the map of the resolved interfaces. *)
Lemma run_parser_body_keeps_interfaces_map (e : Z * list ascii)
    (c : configuration) :
  m_interfaces_map (fst (run_parser_body e c)) = m_interfaces_map c.
Proof.
  unfold run_parser_body, global_table_set_insert. unfold_M.
  destruct (get_parser_type e) as [[| | | |]|what]; simpl; try reflexivity.
  - destruct (parse_group_mem_proto e); reflexivity.
  - destruct (parse_instance_definition e (m_inst_def_set c)); reflexivity.
  - destruct (parse_table e (m_global_table_set c) (m_gmp c)) as [t|what];
      simpl; [|reflexivity].
    destruct (m_global_table_set c !! get_name t); reflexivity.
  - destruct (parse_interface_rule_binding e (m_global_table_set c) (m_gmp c)
                (m_inst_def_set c)); reflexivity.
Qed.

Lemma run_commands_keeps_interfaces_map (cmds : list (Z * list ascii)) :
  forall c : configuration,
    m_interfaces_map (fst (run_commands cmds c)) = m_interfaces_map c.
Proof.
  unfold run_commands.
  induction cmds as [|e cmds IH]; intros c; simpl; [reflexivity|].
  pose proof (run_parser_body_keeps_interfaces_map e c) as Hstep.
  unfold bind. destruct (run_parser_body e c) as [c1 [[]|what]]; simpl in *.
  - rewrite IH. exact Hstep.
  - exact Hstep.
Qed.

Lemma run_parser_keeps_interfaces_map (c : configuration) :
  m_interfaces_map (fst (run_parser c)) = m_interfaces_map c.
Proof.
  unfold run_parser. unfold_M. apply run_commands_keeps_interfaces_map.
Qed.

End RunParserProperties.

(** ** run_parser: the claims *)

(** C1, as the code has it.  A Protocol Declaration that parses is
    accepted wherever it stands, also after an earlier one: in a script with
    two declarations the second one raises no exception and its value
    replaces the protocol held until then. *)
Theorem run_parser_protocol_overwrites `{P : parser}
    (c c1 c2 : configuration) (pre mid : list (Z * list ascii))
    (e1 e2 : Z * list ascii) (gmp1 gmp2 : group_mem_protocol) :
  run_commands pre c = (c1, OK tt) ->
  get_parser_type e1 = OK PT_PROTOCOL ->
  parse_group_mem_proto e1 = OK gmp1 ->
  run_commands mid (set_gmp gmp1 c1) = (c2, OK tt) ->
  get_parser_type e2 = OK PT_PROTOCOL ->
  parse_group_mem_proto e2 = OK gmp2 ->
  run_commands (pre ++ e1 :: mid ++ [e2]) c = (set_gmp gmp2 c2, OK tt) /\
  m_gmp (set_gmp gmp2 c2) = gmp2.
Proof.
  intros Hpre Ht1 Hp1 Hmid Ht2 Hp2. split; [|reflexivity].
  unfold run_commands in *.
  rewrite (for_each_app_OK _ _ _ _ _ Hpre).
  rewrite (for_each_cons_OK _ _ _ _ _ (run_parser_body_protocol e1 gmp1 c1 Ht1 Hp1)).
  rewrite (for_each_app_OK _ _ _ _ _ Hmid).
  rewrite (for_each_cons_OK _ _ _ _ _ (run_parser_body_protocol e2 gmp2 c2 Ht2 Hp2)).
  reflexivity.
Qed.

Lemma run_parser_protocol_overwrites_witness :
  run_commands (P := Sample.parser)
    ([] ++ (1%Z, str "protocol MLDv1")
        :: [(2%Z, str "table T1 10.0.0.0/8")] ++ [(3%Z, str "protocol MLDv2")])
    (members_at_entry true false [])
  = (set_gmp MLDv2
       (set_global_table_set {[ "T1"%string := mk_table "T1" ["10.0.0.0/8"%string] ]}
          (set_gmp MLDv1 (members_at_entry true false []))), OK tt) /\
  m_gmp (set_gmp MLDv2
       (set_global_table_set {[ "T1"%string := mk_table "T1" ["10.0.0.0/8"%string] ]}
          (set_gmp MLDv1 (members_at_entry true false [])))) = MLDv2.
Proof.
  apply (run_parser_protocol_overwrites (P := Sample.parser)
           (members_at_entry true false []) (members_at_entry true false [])
           _ [] [(2%Z, str "table T1 10.0.0.0/8")]
           (1%Z, str "protocol MLDv1") (3%Z, str "protocol MLDv2")
           MLDv1 MLDv2); reflexivity.
Defined.

(** C1 as it is stated fails: a script that declares the protocol twice
    is compiled, and the configuration holds the second value. *)
Lemma configuration_new_protocol_twice :
  match
    configuration_new (P := Sample.parser) (R := Sample.resolver)
      (Some (str "protocol MLDv1; protocol MLDv2;")) false true
  with
  | OK c => get_group_mem_protocol c = MLDv2
  | Throw _ => False
  end.
Proof. vm_compute. reflexivity. Qed.

(** C5.  In a script with two Table Definitions of one name, the second
    one is refused when it is processed: [run_parser] throws "failed to
    parse configfile" (the log says the table already exists), and the Table
    Set still holds the first table under that name. *)
Theorem run_parser_duplicate_table `{P : parser}
    (c c1 c2 : configuration) (pre mid post : list (Z * list ascii))
    (e1 e2 : Z * list ascii) (t1 t2 : table) :
  run_commands pre c = (c1, OK tt) ->
  get_parser_type e1 = OK PT_TABLE ->
  parse_table e1 (m_global_table_set c1) (m_gmp c1) = OK t1 ->
  m_global_table_set c1 !! get_name t1 = None ->
  run_commands mid
    (set_global_table_set (<[get_name t1 := t1]> (m_global_table_set c1)) c1)
  = (c2, OK tt) ->
  get_parser_type e2 = OK PT_TABLE ->
  parse_table e2 (m_global_table_set c2) (m_gmp c2) = OK t2 ->
  get_name t2 = get_name t1 ->
  run_commands (pre ++ e1 :: mid ++ e2 :: post) c
  = (c2, Throw "failed to parse configfile") /\
  m_global_table_set c2 !! get_name t1 = Some t1.
Proof.
  intros Hpre Ht1 Hp1 Hfree Hmid Ht2 Hp2 Hname.
  assert (Hkept : m_global_table_set c2 !! get_name t1 = Some t1).
  { pose proof (run_commands_keeps_tables mid
        (set_global_table_set (<[get_name t1 := t1]> (m_global_table_set c1)) c1)
        (get_name t1) t1) as H.
    rewrite Hmid in H. apply H. simpl. apply lookup_insert_eq. }
  split; [|exact Hkept].
  unfold run_commands in *.
  rewrite (for_each_app_OK _ _ _ _ _ Hpre).
  rewrite (for_each_cons_OK _ _ _ _ _
             (run_parser_body_table_new e1 t1 c1 Ht1 Hp1 Hfree)).
  rewrite (for_each_app_OK _ _ _ _ _ Hmid).
  apply for_each_cons_Throw.
  apply (run_parser_body_table_exists e2 t2 t1 c2 Ht2 Hp2).
  rewrite Hname. exact Hkept.
Qed.

Lemma run_parser_duplicate_table_witness :
  run_commands (P := Sample.parser)
    ([(1%Z, str "protocol IGMPv3")]
       ++ (2%Z, str "table T1 10.0.0.0/8")
       :: [(3%Z, str "table T2 192.168.0.0/16")]
       ++ (4%Z, str "table T1 172.16.0.0/12")
       :: [(5%Z, str "protocol MLDv2")])
    (members_at_entry true false [])
  = (set_global_table_set
       (<["T2"%string := mk_table "T2" ["192.168.0.0/16"%string]]>
          (<["T1"%string := mk_table "T1" ["10.0.0.0/8"%string]]> ∅))
       (members_at_entry true false []),
     Throw "failed to parse configfile") /\
  m_global_table_set
    (set_global_table_set
       (<["T2"%string := mk_table "T2" ["192.168.0.0/16"%string]]>
          (<["T1"%string := mk_table "T1" ["10.0.0.0/8"%string]]> ∅))
       (members_at_entry true false []))
    !! get_name (mk_table "T1" ["10.0.0.0/8"%string])
  = Some (mk_table "T1" ["10.0.0.0/8"%string]).
Proof.
  apply (run_parser_duplicate_table (P := Sample.parser)
           (members_at_entry true false []) (members_at_entry true false [])
           _ [(1%Z, str "protocol IGMPv3")]
           [(3%Z, str "table T2 192.168.0.0/16")]
           [(5%Z, str "protocol MLDv2")]
           (2%Z, str "table T1 10.0.0.0/8")
           (4%Z, str "table T1 172.16.0.0/12")
           (mk_table "T1" ["10.0.0.0/8"%string])
           (mk_table "T1" ["172.16.0.0/12"%string])); reflexivity.
Defined.

(** ** initalize_interfaces *)

Section InitializeInterfacesProperties.
Context `{R : resolver}.

(** [add] with a name the resolver does not know. *)
Lemma add_unknown (interf : interface) (result : interfaces) :
  get_if_index (get_if_name interf) = 0%Z ->
  add interf result = (result, Throw "unknown interface").
Proof. intros H. unfold add. rewrite H. reflexivity. Qed.

(** [add] returns normally with a real handle only, which it stores. *)
Lemma add_OK (interf : interface) (result result' : interfaces) :
  add interf result = (result', OK tt) ->
  get_if_index (get_if_name interf) <> 0%Z /\
  result' = mk_interfaces (if_addr_family result)
              (if_reset_reverse_path_filter result)
              (resolved_handles result ++ [get_if_index (get_if_name interf)]).
Proof.
  unfold add, add_interface. unfold_M.
  destruct (get_if_index (get_if_name interf) =? 0)%Z eqn:E;
    [discriminate|].
  apply Z.eqb_neq in E.
  destruct (add_interface_succeeds result _); [|discriminate].
  intros [= <-]. split; [exact E | reflexivity].
Qed.

Lemma for_each_add_OK (l : list interface) :
  forall result result',
    for_each l add result = (result', OK tt) ->
    Forall (fun interf => get_if_index (get_if_name interf) <> 0%Z) l /\
    result' = mk_interfaces (if_addr_family result)
                (if_reset_reverse_path_filter result)
                (resolved_handles result
                 ++ map (fun interf => get_if_index (get_if_name interf)) l).
Proof.
  induction l as [|interf l IH]; intros result result' H; simpl in H.
  - unfold ret in H. injection H as <-. split; [constructor|].
    simpl. rewrite app_nil_r. destruct result. reflexivity.
  - unfold bind in H.
    destruct (add interf result) as [r1 [[]|what]] eqn:Ha; [|discriminate].
    apply add_OK in Ha as [Hnz ->]. apply IH in H as [Hl ->].
    split; [constructor; assumption|].
    simpl. rewrite <- app_assoc. reflexivity.
Qed.

(** The two loops over the interfaces of an instance are one loop over the
    downstream interfaces followed by the upstream ones. *)
Lemma for_each_downstreams_upstreams (inst : instance_definition)
    (result : interfaces) :
  (for_each (get_downstreams inst) add ;;; for_each (get_upstreams inst) add)
    result
  = for_each (get_downstreams inst ++ get_upstreams inst) add result.
Proof.
  unfold bind.
  destruct (for_each (get_downstreams inst) add result)
    as [r1 [[]|what]] eqn:H.
  - symmetry. apply for_each_app_OK, H.
  - symmetry. apply for_each_app_Throw, H.
Qed.

(** The body of the loop, by the outcome of resolving the names. *)
Lemma initalize_interfaces_body_unfold (inst : instance_definition)
    (c : configuration) :
  initalize_interfaces_body inst c
  = match
      for_each (get_downstreams inst ++ get_upstreams inst) add
        (mk_interfaces (get_addr_family (m_gmp c))
           (m_reset_reverse_path_filter c) [])
    with
    | (result, OK _) =>
        match m_interfaces_map c !! get_instance_name inst with
        | Some _ => (c, Throw "failed to add instance")
        | None =>
            (set_interfaces_map
               (<[get_instance_name inst := result]> (m_interfaces_map c)) c,
             OK tt)
        end
    | (_, Throw what) => (c, Throw what)
    end.
Proof.
  rewrite <- for_each_downstreams_upstreams.
  unfold initalize_interfaces_body, interfaces_map_insert. unfold_M.
  destruct (for_each (get_downstreams inst) add _) as [r1 [[]|what]];
    [|reflexivity].
  destruct (for_each (get_upstreams inst) add r1) as [r2 [[]|what]];
    [|reflexivity].
  simpl. destruct (m_interfaces_map c !! get_instance_name inst); reflexivity.
Qed.

Lemma initalize_interfaces_body_Throw (inst : instance_definition)
    (c : configuration) (result : interfaces) (what : string) :
  for_each (get_downstreams inst ++ get_upstreams inst) add
    (mk_interfaces (get_addr_family (m_gmp c))
       (m_reset_reverse_path_filter c) [])
  = (result, Throw what) ->
  initalize_interfaces_body inst c = (c, Throw what).
Proof.
  intros H. rewrite initalize_interfaces_body_unfold, H. reflexivity.
Qed.

Lemma initalize_interfaces_body_OK (inst : instance_definition)
    (c : configuration) (result : interfaces) :
  for_each (get_downstreams inst ++ get_upstreams inst) add
    (mk_interfaces (get_addr_family (m_gmp c))
       (m_reset_reverse_path_filter c) [])
  = (result, OK tt) ->
  initalize_interfaces_body inst c
  = match m_interfaces_map c !! get_instance_name inst with
    | Some _ => (c, Throw "failed to add instance")
    | None =>
        (set_interfaces_map
           (<[get_instance_name inst := result]> (m_interfaces_map c)) c,
         OK tt)
    end.
Proof.
  intros H. rewrite initalize_interfaces_body_unfold, H. reflexivity.
Qed.

(** What the body does to the members: nothing, or one new group, under
    the name of the instance, with the handles of its names. *)
Lemma initalize_interfaces_body_cases (inst : instance_definition)
    (c : configuration) :
  (exists what, initalize_interfaces_body inst c = (c, Throw what)) \/
  (m_interfaces_map c !! get_instance_name inst = None /\
   Forall (fun interf => get_if_index (get_if_name interf) <> 0%Z)
     (get_downstreams inst ++ get_upstreams inst) /\
   initalize_interfaces_body inst c
   = (set_interfaces_map
        (<[get_instance_name inst :=
             mk_interfaces (get_addr_family (m_gmp c))
               (m_reset_reverse_path_filter c)
               (map get_if_index (if_names inst))]> (m_interfaces_map c)) c,
      OK tt)).
Proof.
  destruct (for_each (get_downstreams inst ++ get_upstreams inst) add
              (mk_interfaces (get_addr_family (m_gmp c))
                 (m_reset_reverse_path_filter c) []))
    as [result [[]|what]] eqn:H.
  - rewrite (initalize_interfaces_body_OK _ _ _ H).
    apply for_each_add_OK in H as [Hnz ->]. simpl.
    destruct (m_interfaces_map c !! get_instance_name inst).
    + left. eexists. reflexivity.
    + right. split; [reflexivity|]. split; [exact Hnz|].
      unfold if_names. rewrite map_map. reflexivity.
  - left. exists what. apply (initalize_interfaces_body_Throw _ _ _ _ H).
Qed.

Lemma handles_valid_insert (m : gmap string interfaces) (name : string)
    (group : interfaces) :
  handles_valid m ->
  Forall (fun h => h <> 0%Z) (resolved_handles group) ->
  handles_valid (<[name := group]> m).
Proof. intros Hm Hg. apply map_Forall_insert_2; assumption. Qed.

Lemma names_resolved (inst : instance_definition) :
  Forall (fun interf => get_if_index (get_if_name interf) <> 0%Z)
    (get_downstreams inst ++ get_upstreams inst) ->
  Forall (fun h => h <> 0%Z) (map get_if_index (if_names inst)).
Proof.
  intros H. unfold if_names. rewrite map_map, Forall_map. exact H.
Qed.

(** The loop over the instances.  It keeps the handles of the map real,
    the protocol and the flag as they were, and touches no name but the
    names of the instances it has worked on. *)
Lemma initalize_interfaces_loop_invariant (insts : list instance_definition) :
  forall c c' r,
    for_each insts initalize_interfaces_body c = (c', r) ->
    (handles_valid (m_interfaces_map c) ->
     handles_valid (m_interfaces_map c')) /\
    m_gmp c' = m_gmp c /\
    m_reset_reverse_path_filter c' = m_reset_reverse_path_filter c /\
    (forall name,
       name ∉ map get_instance_name insts ->
       m_interfaces_map c' !! name = m_interfaces_map c !! name) /\
    (forall name group,
       m_interfaces_map c !! name = Some group ->
       m_interfaces_map c' !! name = Some group).
Proof.
  induction insts as [|inst insts IH]; intros c c' r H; simpl in H.
  - unfold ret in H. injection H as <- <-. repeat split; auto.
  - unfold bind in H.
    destruct (initalize_interfaces_body_cases inst c)
      as [[what Hb] | (Hfree & Hnz & Hb)]; rewrite Hb in H.
    + injection H as <- <-. repeat split; auto.
    + apply IH in H as (Hv & Hg & Hr & Hother & Hkeep). simpl in *.
      repeat split; auto.
      * intros Hc. apply Hv, handles_valid_insert; [exact Hc|].
        simpl. apply names_resolved, Hnz.
      * intros name Hname. rewrite not_elem_of_cons in Hname.
        destruct Hname as [Hne Hname].
        rewrite (Hother name Hname). apply lookup_insert_ne. congruence.
      * intros name group Hl. apply Hkeep.
        rewrite lookup_insert_ne; [exact Hl|].
        intros <-. rewrite Hfree in Hl. discriminate Hl.
Qed.

(** When the loop returns normally, every instance has its group. *)
Lemma initalize_interfaces_loop_OK (insts : list instance_definition) :
  forall c c',
    for_each insts initalize_interfaces_body c = (c', OK tt) ->
    forall inst,
      inst ∈ insts ->
      m_interfaces_map c' !! get_instance_name inst
      = Some (mk_interfaces (get_addr_family (m_gmp c))
                (m_reset_reverse_path_filter c)
                (map get_if_index (if_names inst))) /\
      Forall (fun h => h <> 0%Z) (map get_if_index (if_names inst)).
Proof.
  induction insts as [|i insts IH]; intros c c' H inst Hin.
  - apply elem_of_nil in Hin. contradiction.
  - simpl in H. unfold bind in H.
    destruct (initalize_interfaces_body_cases i c)
      as [[what Hb] | (Hfree & Hnz & Hb)]; rewrite Hb in H;
      [discriminate H|].
    apply elem_of_cons in Hin as [-> | Hin].
    + apply initalize_interfaces_loop_invariant in H
        as (_ & _ & _ & _ & Hkeep).
      split; [|apply names_resolved, Hnz].
      apply Hkeep. simpl. apply lookup_insert_eq.
    + apply (IH _ _ H inst Hin).
Qed.

(** With a name that the resolver does not know in one of the instances,
    the loop does not return normally. *)
Lemma initalize_interfaces_loop_unknown (insts : list instance_definition) :
  forall c inst interf,
    inst ∈ insts ->
    interf ∈ get_downstreams inst ++ get_upstreams inst ->
    get_if_index (get_if_name interf) = 0%Z ->
    exists c' what,
      for_each insts initalize_interfaces_body c = (c', Throw what).
Proof.
  induction insts as [|i insts IH]; intros c inst interf Hin Hi Hz.
  - apply elem_of_nil in Hin. contradiction.
  - simpl. unfold bind.
    destruct (initalize_interfaces_body_cases i c)
      as [[what Hb] | (Hfree & Hnz & Hb)]; rewrite Hb.
    + eauto.
    + apply elem_of_cons in Hin as [-> | Hin].
      * rewrite Forall_forall in Hnz. apply Hnz in Hi. contradiction.
      * apply (IH _ inst interf Hin Hi Hz).
Qed.

(** When [add_interface] refuses nothing and the instances have distinct
    names, no exception but "unknown interface" leaves the loop. *)
Lemma for_each_add_Throw (l : list interface) :
  (forall group h, add_interface_succeeds group h = true) ->
  forall result result' what,
    for_each l add result = (result', Throw what) ->
    what = "unknown interface"%string.
Proof.
  intros Hadd. induction l as [|interf l IH]; intros result result' what H;
    simpl in H; [discriminate H|].
  unfold bind in H. destruct (add interf result) as [r1 [[]|w]] eqn:Ha.
  - apply (IH _ _ _ H).
  - injection H as <- <-. unfold add, add_interface in Ha. unfold_M.
    destruct (get_if_index (get_if_name interf) =? 0)%Z;
      [injection Ha as _ <-; reflexivity|].
    rewrite Hadd in Ha. discriminate Ha.
Qed.

Lemma initalize_interfaces_loop_Throw (insts : list instance_definition) :
  (forall group h, add_interface_succeeds group h = true) ->
  NoDup (map get_instance_name insts) ->
  forall c c' what,
    (forall inst, inst ∈ insts ->
       m_interfaces_map c !! get_instance_name inst = None) ->
    for_each insts initalize_interfaces_body c = (c', Throw what) ->
    what = "unknown interface"%string.
Proof.
  intros Hadd. induction insts as [|i insts IH];
    intros Hnd c c' what Hfree H; simpl in H; [discriminate H|].
  apply NoDup_cons in Hnd as [Hi Hnd]. unfold bind in H.
  destruct (for_each (get_downstreams i ++ get_upstreams i) add
              (mk_interfaces (get_addr_family (m_gmp c))
                 (m_reset_reverse_path_filter c) []))
    as [result [[]|w]] eqn:Hn.
  - rewrite (initalize_interfaces_body_OK _ _ _ Hn) in H.
    rewrite (Hfree i) in H by (left).
    apply (IH Hnd _ _ _) in H; [exact H|].
    intros inst Hin. simpl. rewrite lookup_insert_ne.
    + apply Hfree. right. exact Hin.
    + intros Heq. apply Hi. rewrite Heq. apply list_elem_of_fmap.
      exists inst. split; [reflexivity | exact Hin].
  - rewrite (initalize_interfaces_body_Throw _ _ _ _ Hn) in H.
    injection H as _ <-. apply (for_each_add_Throw _ Hadd _ _ _ Hn).
Qed.

End InitializeInterfacesProperties.

(** ** Interface resolution: the claims *)

(** C6.  [initalize_interfaces] resolves, for each instance, every
    downstream name and then every upstream name.
    - Every handle stored in a group of the map is non-zero, however the
      method is left.
    - When the method returns, each instance has its group, which holds
      the handles of its downstream names followed by those of its upstream
      names, none of them zero.
    - When the resolver answers 0 for a name (the instances before it are
      done, the names before it are added), the method throws "unknown
      interface", the members are as they were before that instance, and
      its name has no group in the map. *)
Theorem initalize_interfaces_resolves `{R : resolver} (c : configuration) :
  (handles_valid (m_interfaces_map c) ->
   handles_valid (m_interfaces_map (fst (initalize_interfaces c)))) /\
  (forall c',
     initalize_interfaces c = (c', OK tt) ->
     forall inst,
       inst ∈ m_inst_def_set c ->
       m_interfaces_map c' !! get_instance_name inst
       = Some (mk_interfaces (get_addr_family (m_gmp c))
                 (m_reset_reverse_path_filter c)
                 (map get_if_index (if_names inst))) /\
       Forall (fun h => h <> 0%Z) (map get_if_index (if_names inst))) /\
  (forall pre inst post before interf after c1 result,
     m_inst_def_set c = pre ++ inst :: post ->
     for_each pre initalize_interfaces_body c = (c1, OK tt) ->
     get_downstreams inst ++ get_upstreams inst = before ++ interf :: after ->
     for_each before add
       (mk_interfaces (get_addr_family (m_gmp c1))
          (m_reset_reverse_path_filter c1) [])
     = (result, OK tt) ->
     get_if_index (get_if_name interf) = 0%Z ->
     initalize_interfaces c = (c1, Throw "unknown interface") /\
     (m_interfaces_map c !! get_instance_name inst = None ->
      get_instance_name inst ∉ map get_instance_name pre ->
      m_interfaces_map c1 !! get_instance_name inst = None)).
Proof.
  unfold initalize_interfaces. unfold_M. split; [|split].
  - intros Hv.
    destruct (for_each (m_inst_def_set c) initalize_interfaces_body c)
      as [c' r] eqn:H.
    apply initalize_interfaces_loop_invariant in H as (H & _). apply H, Hv.
  - intros c' H inst Hin.
    destruct (for_each (m_inst_def_set c) initalize_interfaces_body c)
      as [c2 [[]|what]] eqn:Hl; [|discriminate H].
    injection H as <-.
    apply (initalize_interfaces_loop_OK _ _ _ Hl inst Hin).
  - intros pre inst post before interf after c1 result
      Hinsts Hpre Hnames Hbefore Hzero.
    split.
    + rewrite Hinsts, (for_each_app_OK _ _ _ _ _ Hpre).
      assert (Hb : initalize_interfaces_body inst c1
                   = (c1, Throw "unknown interface")).
      { apply (initalize_interfaces_body_Throw inst c1 result).
        rewrite Hnames, (for_each_app_OK _ _ _ _ _ Hbefore).
        apply for_each_cons_Throw, add_unknown, Hzero. }
      rewrite (for_each_cons_Throw _ _ _ _ _ _ Hb). reflexivity.
    + intros Hfree Hnew.
      apply initalize_interfaces_loop_invariant in Hpre
        as (_ & _ & _ & Hother & _).
      rewrite (Hother _ Hnew). exact Hfree.
Qed.

Lemma initalize_interfaces_resolves_witness :
  initalize_interfaces (R := Sample.resolver) Sample.two_instances
  = (set_interfaces_map
       {[ "P1"%string := mk_interfaces AF_INET false [2%Z; 3%Z] ]}
       Sample.two_instances,
     Throw "unknown interface") /\
  m_interfaces_map
    (set_interfaces_map
       {[ "P1"%string := mk_interfaces AF_INET false [2%Z; 3%Z] ]}
       Sample.two_instances) !! "P2"%string = None.
Proof.
  destruct (initalize_interfaces_resolves (R := Sample.resolver)
              Sample.two_instances) as (_ & _ & H).
  destruct (H [mk_instance_definition "P1" [mk_interface "eth0" []]
                 [mk_interface "eth1" []]]
              (mk_instance_definition "P2" [mk_interface "eth0" []]
                 [mk_interface "wlan7" []])
              [] [mk_interface "eth0" []] (mk_interface "wlan7" []) []
              (set_interfaces_map
                 {[ "P1"%string := mk_interfaces AF_INET false [2%Z; 3%Z] ]}
                 Sample.two_instances)
              (mk_interfaces AF_INET false [2%Z])
              eq_refl eq_refl eq_refl eq_refl eq_refl) as [Hthrow Hfree].
  split; [exact Hthrow|].
  apply Hfree; [reflexivity|].
  simpl. rewrite list_elem_of_singleton. discriminate.
Defined.

Lemma initalize_interfaces_unfold `{R : resolver} (c : configuration) :
  initalize_interfaces c
  = for_each (m_inst_def_set c) initalize_interfaces_body c.
Proof. reflexivity. Qed.

(** The constructor in production mode, once the script is parsed. *)
Lemma configuration_new_production `{P : parser} `{R : resolver}
    (file : option (list ascii)) (reset_reverse_path_filter : bool)
    (script : list ascii) (c1 : configuration) :
  load_file file = OK script ->
  run_parser
    (members_at_entry false reset_reverse_path_filter
       (separate_commands (delete_comments script)))
  = (c1, OK tt) ->
  configuration_new file reset_reverse_path_filter false
  = match initalize_interfaces c1 with
    | (c2, OK _) => OK c2
    | (_, Throw what) => Throw what
    end.
Proof.
  intros Hload Hparse. unfold configuration_new. rewrite Hload.
  unfold bind at 1. rewrite Hparse. simpl.
  destruct (initalize_interfaces c1) as [c2 [[]|what]]; reflexivity.
Qed.

(** C7.  Interface resolution is all or nothing.  Once the script is
    parsed:
    - when the resolver answers 0 for a name of one of the instances, the
      constructor in production mode is left by an exception: there is no
      configuration object, and so no group of any instance for
      [get_interfaces_for_pinstance] to return, whatever the groups built
      before the failure;
    - when the lookup that answers 0 is made (the instances before it have
      their groups, the interfaces before it are added), that exception is
      "unknown interface". *)
Theorem configuration_new_resolution_atomic `{P : parser} `{R : resolver}
    (file : option (list ascii)) (reset_reverse_path_filter : bool)
    (script : list ascii) (c1 : configuration) :
  load_file file = OK script ->
  run_parser
    (members_at_entry false reset_reverse_path_filter
       (separate_commands (delete_comments script)))
  = (c1, OK tt) ->
  (forall inst interf,
     inst ∈ m_inst_def_set c1 ->
     interf ∈ get_downstreams inst ++ get_upstreams inst ->
     get_if_index (get_if_name interf) = 0%Z ->
     (exists what,
        configuration_new file reset_reverse_path_filter false = Throw what) /\
     (forall c,
        configuration_new file reset_reverse_path_filter false <> OK c)) /\
  (forall pre inst post before interf after c2 result,
     m_inst_def_set c1 = pre ++ inst :: post ->
     for_each pre initalize_interfaces_body c1 = (c2, OK tt) ->
     get_downstreams inst ++ get_upstreams inst = before ++ interf :: after ->
     for_each before add
       (mk_interfaces (get_addr_family (m_gmp c2))
          (m_reset_reverse_path_filter c2) [])
     = (result, OK tt) ->
     get_if_index (get_if_name interf) = 0%Z ->
     configuration_new file reset_reverse_path_filter false
     = Throw "unknown interface").
Proof.
  intros Hload Hparse.
  rewrite (configuration_new_production _ _ _ _ Hload Hparse).
  rewrite initalize_interfaces_unfold. split.
  - intros inst interf Hinst Hinterf Hzero.
    destruct (initalize_interfaces_loop_unknown (m_inst_def_set c1) c1
                inst interf Hinst Hinterf Hzero) as (c2 & what & Hl).
    rewrite Hl. split; [exists what; reflexivity | discriminate].
  - intros pre inst post before interf after c2 result
      Hinsts Hpre Hnames Hbefore Hzero.
    rewrite Hinsts, (for_each_app_OK _ _ _ _ _ Hpre).
    assert (Hb : initalize_interfaces_body inst c2
                 = (c2, Throw "unknown interface")).
    { apply (initalize_interfaces_body_Throw inst c2 result).
      rewrite Hnames, (for_each_app_OK _ _ _ _ _ Hbefore).
      apply for_each_cons_Throw, add_unknown, Hzero. }
    rewrite (for_each_cons_Throw _ _ _ _ _ _ Hb). reflexivity.
Qed.

Lemma configuration_new_resolution_atomic_witness :
  ((exists what,
      configuration_new (P := Sample.parser) (R := Sample.resolver)
        (Some Sample.two_instances_script) false false = Throw what) /\
   (forall c,
      configuration_new (P := Sample.parser) (R := Sample.resolver)
        (Some Sample.two_instances_script) false false <> OK c)) /\
  configuration_new (P := Sample.parser) (R := Sample.resolver)
    (Some Sample.two_instances_script) false false
  = Throw "unknown interface".
Proof.
  destruct (configuration_new_resolution_atomic
              (P := Sample.parser) (R := Sample.resolver)
              (Some Sample.two_instances_script) false
              (Sample.two_instances_script
                 ++ missing_terminator Sample.two_instances_script)
              Sample.two_instances eq_refl eq_refl) as [Hfails Hunknown].
  split.
  - apply (Hfails (mk_instance_definition "P2" [mk_interface "eth0" []]
                     [mk_interface "wlan7" []])
                  (mk_interface "wlan7" [])).
    + right. left.
    + right. left.
    + reflexivity.
  - apply (Hunknown
             [mk_instance_definition "P1" [mk_interface "eth0" []]
                [mk_interface "eth1" []]]
             (mk_instance_definition "P2" [mk_interface "eth0" []]
                [mk_interface "wlan7" []])
             [] [mk_interface "eth0" []] (mk_interface "wlan7" []) []
             (set_interfaces_map
                {[ "P1"%string := mk_interfaces AF_INET false [2%Z; 3%Z] ]}
                Sample.two_instances)
             (mk_interfaces AF_INET false [2%Z])); reflexivity.
Defined.

(** The exception names the first failure, also on a host that refuses
    handles: with the unknown name first it is "unknown interface", with
    a refused handle first it is "failed to add interface"; in both cases
    no configuration exists. *)
Example configuration_new_first_failure :
  configuration_new (P := Sample.parser) (R := crowded_resolver)
    (Some (str "instance P1 downstream: wlan7 eth0 upstream: eth1;"))
    false false
  = Throw "unknown interface" /\
  configuration_new (P := Sample.parser) (R := crowded_resolver)
    (Some (str "instance P1 downstream: eth0 eth1 upstream: wlan7;"))
    false false
  = Throw "failed to add interface".
Proof. split; reflexivity. Qed.

(** The map under construction held the group of [P1] when the lookup of
    [wlan7] failed; the constructor hands out nothing. *)
Example configuration_new_discards_groups :
  m_interfaces_map
    (fst (initalize_interfaces (R := Sample.resolver) Sample.two_instances))
    !! "P1"%string
  = Some (mk_interfaces AF_INET false [2%Z; 3%Z]) /\
  configuration_new (P := Sample.parser) (R := Sample.resolver)
    (Some Sample.two_instances_script) false false
  = Throw "unknown interface".
Proof. split; reflexivity. Qed.

(** In testing mode no name is resolved and the same script compiles. *)
Example configuration_new_testing_mode :
  match
    configuration_new (P := Sample.parser) (R := Sample.resolver)
      (Some Sample.two_instances_script) false true
  with
  | OK c => get_interfaces_for_pinstance c "P1" = None
  | Throw _ => False
  end.
Proof. vm_compute. reflexivity. Qed.

(** * Further properties *)

(** ** ltrim, rtrim, trim *)

Lemma leading_spaces_blank (s : list ascii) : blank (leading_spaces s).
Proof.
  unfold blank. induction s as [|c r IH]; simpl; [constructor|].
  destruct (isspace c) eqn:E; constructor; assumption.
Qed.

Lemma ltrim_head (s : list ascii) :
  match ltrim s with
  | [] => True
  | c :: _ => isspace c = false
  end.
Proof.
  induction s as [|c r IH]; simpl; [exact I|].
  destruct (isspace c) eqn:E; [exact IH | exact E].
Qed.

Lemma ltrim_fixed (s : list ascii) :
  match s with [] => True | c :: _ => isspace c = false end -> ltrim s = s.
Proof. destruct s as [|c r]; simpl; [reflexivity|]. intros ->. reflexivity. Qed.

Lemma last_rev {A : Type} (l : list A) : last (rev l) = head l.
Proof. destruct l as [|x l]; [reflexivity|]. simpl. apply last_snoc. Qed.

Lemma head_rev {A : Type} (l : list A) : head (rev l) = last l.
Proof. rewrite <- (rev_involutive l) at 2. symmetry. apply last_rev. Qed.

Lemma rtrim_split (s : list ascii) :
  s = rtrim s ++ rev (leading_spaces (rev s)).
Proof.
  unfold rtrim. rewrite <- rev_app_distr, leading_spaces_ltrim.
  symmetry. apply rev_involutive.
Qed.

Lemma rtrim_last (s : list ascii) :
  match last (rtrim s) with
  | Some c => isspace c = false
  | None => True
  end.
Proof.
  unfold rtrim. rewrite last_rev.
  pose proof (ltrim_head (rev s)) as H.
  destruct (ltrim (rev s)); simpl; exact H.
Qed.

Lemma rtrim_fixed (s : list ascii) :
  match last s with Some c => isspace c = false | None => True end ->
  rtrim s = s.
Proof.
  intros H. unfold rtrim. rewrite ltrim_fixed; [apply rev_involutive|].
  rewrite <- head_rev in H. destruct (rev s); simpl in *; exact H.
Qed.

Lemma ltrim_last (s : list ascii) (c : ascii) :
  last (ltrim s) = Some c -> last s = Some c.
Proof.
  intros H. rewrite <- (leading_spaces_ltrim s), last_app, H. reflexivity.
Qed.

Lemma trim_head (s : list ascii) :
  match trim s with [] => True | c :: _ => isspace c = false end.
Proof. apply ltrim_head. Qed.

Lemma trim_last (s : list ascii) :
  match last (trim s) with Some c => isspace c = false | None => True end.
Proof.
  unfold trim. destruct (last (ltrim (rtrim s))) as [c|] eqn:E; [|exact I].
  apply ltrim_last in E. pose proof (rtrim_last s) as H.
  rewrite E in H. exact H.
Qed.

Lemma blank_rev (s : list ascii) : blank s -> blank (rev s).
Proof. unfold blank. apply Forall_rev. Qed.

(** X1.  [trim] cuts a text out of its whitespace frame: the text is the
    trimmed text between two runs of whitespace, and the trimmed text, when
    it is not empty, starts and ends with a character that is no
    whitespace. *)
Theorem trim_frame (s : list ascii) :
  exists lead trail,
    s = lead ++ trim s ++ trail /\ blank lead /\ blank trail /\
    match trim s with [] => True | c :: _ => isspace c = false end /\
    match last (trim s) with Some c => isspace c = false | None => True end.
Proof.
  exists (leading_spaces (rtrim s)), (rev (leading_spaces (rev s))).
  split; [|split; [|split; [|split]]].
  - unfold trim. rewrite app_assoc, leading_spaces_ltrim. apply rtrim_split.
  - apply leading_spaces_blank.
  - apply blank_rev, leading_spaces_blank.
  - apply trim_head.
  - apply trim_last.
Qed.

(** X2.  Trimming is idempotent on each side and on both, and the two
    sides commute: [ltrim] after [rtrim] (as [trim] does) is [rtrim] after
    [ltrim] (as [separate_commands] does). *)
Theorem trim_idempotent (s : list ascii) :
  ltrim (ltrim s) = ltrim s /\
  rtrim (rtrim s) = rtrim s /\
  trim (trim s) = trim s /\
  rtrim (ltrim s) = ltrim (rtrim s).
Proof.
  split; [|split; [|split]].
  - apply ltrim_fixed, ltrim_head.
  - apply rtrim_fixed, rtrim_last.
  - unfold trim at 1. rewrite rtrim_fixed by apply trim_last.
    apply ltrim_fixed, trim_head.
  - apply rtrim_ltrim.
Qed.

(** ** count_chars *)

(** X3.  [count_chars] returns the number of occurrences of the character
    reduced modulo [2^32], a value of [unsigned int]; it is the number of
    occurrences itself up to [UINT_MAX], and over a concatenation it is the
    wrapped sum of the two counts. *)
Theorem count_chars_counts (s t : list ascii) (c : ascii) :
  count_chars s c = uint (Z.of_nat (count_occ ascii_dec s c)) /\
  (0 <= count_chars s c <= UINT_MAX)%Z /\
  ((Z.of_nat (count_occ ascii_dec s c) <= UINT_MAX)%Z ->
   count_chars s c = Z.of_nat (count_occ ascii_dec s c)) /\
  count_chars (s ++ t) c = uint (count_chars s c + count_chars t c).
Proof.
  assert (H : forall l, count_chars l c
                        = uint (Z.of_nat (count_occ ascii_dec l c))).
  { intros l. unfold count_chars. change 0%Z with (uint 0).
    rewrite count_chars_from. reflexivity. }
  split; [apply H|]. split; [|split].
  - rewrite H. unfold uint, UINT_MAX.
    pose proof (Z.mod_pos_bound (Z.of_nat (count_occ ascii_dec s c)) (2 ^ 32)).
    lia.
  - intros Hs. rewrite H. apply uint_small. lia.
  - rewrite !H, count_occ_app, uint_add_l, uint_add_r. f_equal. lia.
Qed.

(** ** load_file *)

Lemma missing_terminator_terminated (s : list ascii) :
  missing_terminator (s ++ missing_terminator s) = [].
Proof.
  unfold missing_terminator at 2.
  destruct (last s) as [c|] eqn:Hl.
  - destruct (Ascii.eqb c nl) eqn:E.
    + rewrite app_nil_r. unfold missing_terminator. rewrite Hl, E.
      reflexivity.
    + unfold missing_terminator. rewrite last_snoc. reflexivity.
  - apply last_None in Hl. subst s. reflexivity.
Qed.

(** X4.  [load_file] normalises the end of the text: reading a file that
    holds a text [load_file] returned gives that text again; the content
    comes back unchanged exactly when it is empty or ends in ['\n'], and an
    empty file gives the empty text. *)
Theorem load_file_normalises (content : list ascii) :
  exists out,
    load_file (Some content) = OK out /\
    load_file (Some out) = OK out /\
    (out = content <-> content = [] \/ last content = Some nl) /\
    (content = [] -> out = []).
Proof.
  exists (content ++ missing_terminator content).
  rewrite !load_file_lines, !lines_terminated, missing_terminator_terminated.
  rewrite app_nil_r. split; [reflexivity|]. split; [reflexivity|]. split.
  - unfold missing_terminator. split.
    + intros H. destruct (last content) as [c|] eqn:Hl.
      * right. destruct (Ascii.eqb c nl) eqn:E.
        -- apply Ascii.eqb_eq in E. subst c. reflexivity.
        -- apply (f_equal (@length ascii)) in H. rewrite length_app in H.
           simpl in H. lia.
      * left. apply last_None, Hl.
    + intros [-> | Hl]; [reflexivity|]. rewrite Hl. simpl. apply app_nil_r.
  - intros ->. reflexivity.
Qed.

(** ** delete_comments *)

Lemma find_0_absent (s : list ascii) (c : ascii) :
  Forall (fun x => x <> c) s -> find s c 0 = None.
Proof.
  induction 1 as [|x s Hx _ IH]; simpl; [reflexivity|].
  destruct (Ascii.eqb x c) eqn:E.
  - apply Ascii.eqb_eq in E. contradiction.
  - rewrite IH. reflexivity.
Qed.

(** X5.  The text [delete_comments] returns holds no comment marker: a
    search for ['#'] in it finds nothing. *)
Theorem delete_comments_no_marker (s : list ascii) :
  Forall (fun x => x <> comment_char) (delete_comments s) /\
  find (delete_comments s) comment_char 0 = None.
Proof.
  assert (H : Forall (fun x => x <> comment_char) (delete_comments s)).
  { rewrite delete_comments_strip. apply strip_skip_no_marker. }
  split; [exact H | apply find_0_absent, H].
Qed.

Lemma strip_skip_line (a b : list ascii) :
  strip_comments (a ++ nl :: b) = strip_comments a ++ nl :: strip_comments b /\
  skip_comment (a ++ nl :: b) = skip_comment a ++ nl :: strip_comments b.
Proof.
  induction a as [|c r [IH1 IH2]]; simpl.
  - split; reflexivity.
  - split.
    + destruct (Ascii.eqb c comment_char); [exact IH2|].
      rewrite IH1. reflexivity.
    + destruct (Ascii.eqb c end_of_comment); [|exact IH2].
      rewrite IH1. reflexivity.
Qed.

Lemma strip_comments_line (a : list ascii) :
  Forall (fun x => x <> nl) a ->
  strip_comments a = fst (read_until comment_char a).
Proof.
  induction 1 as [|c r Hc Hr IH]; simpl; [reflexivity|].
  destruct (Ascii.eqb c comment_char) eqn:E.
  - apply skip_comment_no_end, Hr.
  - rewrite IH. destruct (read_until comment_char r). reflexivity.
Qed.

(** X6.  [delete_comments] works line by line: the result for two texts
    joined by a line terminator is the two results joined by it, and the
    result for a single line is the line up to its first ['#']. *)
Theorem delete_comments_by_line :
  (forall a b,
     delete_comments (a ++ nl :: b)
     = delete_comments a ++ nl :: delete_comments b) /\
  (forall a,
     Forall (fun x => x <> nl) a ->
     delete_comments a = fst (read_until comment_char a)).
Proof.
  split.
  - intros a b. rewrite !delete_comments_strip. apply strip_skip_line.
  - intros a Ha. rewrite delete_comments_strip.
    apply strip_comments_line, Ha.
Qed.

Lemma strip_skip_sublist (s : list ascii) :
  strip_comments s `sublist_of` s /\ skip_comment s `sublist_of` s.
Proof.
  induction s as [|c r [IH1 IH2]]; simpl; [split; constructor|].
  split.
  - destruct (Ascii.eqb c comment_char);
      [apply sublist_cons, IH2 | apply sublist_skip, IH1].
  - destruct (Ascii.eqb c end_of_comment);
      [apply sublist_skip, IH1 | apply sublist_cons, IH2].
Qed.

(** X7.  [delete_comments] only removes characters: its result is the
    input with some characters left out, in the same order, and is no
    longer than the input. *)
Theorem delete_comments_sublist (s : list ascii) :
  delete_comments s `sublist_of` s /\
  length (delete_comments s) <= length s.
Proof.
  assert (H : delete_comments s `sublist_of` s).
  { rewrite delete_comments_strip. apply strip_skip_sublist. }
  split; [exact H | apply sublist_length, H].
Qed.

(** ** separate_commands *)

Lemma split_on_segments (d : ascii) (s : list ascii) :
  Forall (Forall (fun x => x <> d)) (split_on d s).
Proof.
  induction s as [|c r IH]; simpl; [repeat constructor|].
  destruct (Ascii.eqb c d) eqn:E; [constructor; [constructor | exact IH]|].
  apply eqb_false_ne in E.
  destruct (split_on d r) as [|seg segs];
    [repeat constructor; exact E|].
  apply Forall_cons in IH as [Hseg Hsegs].
  constructor; [constructor; assumption | exact Hsegs].
Qed.

Lemma split_on_characters (P : ascii -> Prop) (d : ascii) (s : list ascii) :
  Forall P s -> Forall (Forall P) (split_on d s).
Proof.
  induction 1 as [|c r Hc _ IH]; simpl; [repeat constructor|].
  destruct (Ascii.eqb c d); [constructor; [constructor | exact IH]|].
  destruct (split_on d r) as [|seg segs];
    [repeat constructor; exact Hc|].
  apply Forall_cons in IH as [Hseg Hsegs].
  constructor; [constructor; assumption | exact Hsegs].
Qed.

Lemma ltrim_characters (P : ascii -> Prop) (s : list ascii) :
  Forall P s -> Forall P (ltrim s).
Proof.
  induction 1 as [|c r Hc Hr IH]; simpl; [constructor|].
  destruct (isspace c); [exact IH | constructor; assumption].
Qed.

Lemma trim_characters (P : ascii -> Prop) (s : list ascii) :
  Forall P s -> Forall P (trim s).
Proof.
  intros H. unfold trim, rtrim.
  apply ltrim_characters, Forall_rev, ltrim_characters, Forall_rev, H.
Qed.

Lemma number_commands_wellformed (P : ascii -> Prop)
    (segs : list (list ascii)) :
  Forall (Forall P) segs ->
  forall line,
    Forall (fun cmd =>
              snd cmd <> [] /\ Forall P (snd cmd) /\
              match snd cmd with [] => True | c :: _ => isspace c = false end /\
              match last (snd cmd) with
              | Some c => isspace c = false
              | None => True
              end)
      (number_commands line segs).
Proof.
  induction 1 as [|seg segs Hseg _ IH]; intros line; [constructor|].
  simpl number_commands.
  pose proof (trim_head seg) as Hh. pose proof (trim_last seg) as Hl.
  pose proof (trim_characters P seg Hseg) as Hp.
  destruct (trim seg) as [|x w] eqn:E; [apply IH|].
  constructor; [|apply IH].
  simpl. repeat split; [discriminate | exact Hp | exact Hh | exact Hl].
Qed.

Lemma uint_range (z : Z) : (0 <= uint z <= UINT_MAX)%Z.
Proof.
  unfold uint, UINT_MAX. pose proof (Z.mod_pos_bound z (2 ^ 32)). lia.
Qed.

(** X8.  Every command of [separate_commands] is well formed: its text is
    not empty, holds no separator [';'], starts and ends with a character
    that is no whitespace, and its line number is a value of
    [unsigned int]. *)
Theorem separate_commands_wellformed (s : list ascii) :
  Forall (fun cmd =>
            snd cmd <> [] /\
            Forall (fun x => x <> cmd_separator) (snd cmd) /\
            match snd cmd with [] => True | c :: _ => isspace c = false end /\
            match last (snd cmd) with
            | Some c => isspace c = false
            | None => True
            end /\
            (0 <= fst cmd <= UINT_MAX)%Z)
    (separate_commands s).
Proof.
  rewrite separate_commands_stored. unfold split_commands.
  rewrite Forall_map.
  eapply Forall_impl;
    [apply (number_commands_wellformed _ _
              (split_on_segments cmd_separator s) 1%Z)|].
  intros [l t] (H1 & H2 & H3 & H4). simpl in *.
  repeat split; try assumption; apply uint_range.
Qed.

Lemma split_on_nonempty (d : ascii) (s : list ascii) : split_on d s <> [].
Proof.
  destruct s as [|c r]; simpl; [discriminate|].
  destruct (Ascii.eqb c d); [discriminate|].
  destruct (split_on d r); discriminate.
Qed.

Lemma split_on_app (d : ascii) (a b : list ascii) :
  split_on d (a ++ d :: b) = split_on d a ++ split_on d b.
Proof.
  induction a as [|c a IH]; simpl.
  - rewrite Ascii.eqb_refl. reflexivity.
  - destruct (Ascii.eqb c d); [rewrite IH; reflexivity|].
    rewrite IH. pose proof (split_on_nonempty d a) as Hne.
    destruct (split_on d a); [contradiction|]. reflexivity.
Qed.

Lemma number_commands_shift (segs : list (list ascii)) :
  forall line n,
    number_commands (line + n) segs
    = map (fun cmd => ((fst cmd + n)%Z, snd cmd)) (number_commands line segs).
Proof.
  induction segs as [|seg segs IH]; intros line n; [reflexivity|].
  simpl number_commands.
  replace (line + n + newlines seg)%Z with (line + newlines seg + n)%Z by lia.
  rewrite IH. destruct (trim seg); [reflexivity|].
  simpl. f_equal. f_equal. lia.
Qed.

(** X9.  [separate_commands] composes over a separator: the commands of
    [a ++ ";" ++ b] are the commands of [a], followed by the commands of
    [b] with their line numbers moved down by the line terminators of [a]
    (in [unsigned int] arithmetic). *)
Theorem separate_commands_app (a b : list ascii) :
  separate_commands (a ++ cmd_separator :: b)
  = separate_commands a
    ++ map (shift_lines (newlines a)) (separate_commands b).
Proof.
  rewrite !separate_commands_stored. unfold split_commands.
  rewrite split_on_app, number_commands_app, map_app. f_equal.
  fold (total_newlines (split_on cmd_separator a)).
  rewrite (total_newlines_split_on _ _ cmd_separator_not_nl).
  rewrite number_commands_shift, !map_map. apply map_ext.
  intros [l t]. unfold shift_lines, stored. simpl.
  rewrite uint_add_l. reflexivity.
Qed.

Lemma number_commands_nil (segs : list (list ascii)) :
  forall line,
    number_commands line segs = [] <-> Forall (fun seg => trim seg = []) segs.
Proof.
  induction segs as [|seg segs IH]; intros line; simpl.
  - split; [constructor | reflexivity].
  - destruct (trim seg) as [|x w] eqn:E.
    + rewrite IH. split.
      * intros H. constructor; assumption.
      * intros H. apply Forall_cons in H as [_ H]. exact H.
    + split; [discriminate|].
      intros H. apply Forall_cons in H as [H _]. rewrite E in H.
      discriminate H.
Qed.

Lemma number_commands_length (segs : list (list ascii)) :
  forall line, length (number_commands line segs) <= length segs.
Proof.
  induction segs as [|seg segs IH]; intros line; simpl; [lia|].
  specialize (IH (line + newlines seg)%Z).
  destruct (trim seg); simpl; lia.
Qed.

Lemma split_on_length (d : ascii) (s : list ascii) :
  length (split_on d s) = S (count_occ ascii_dec s d).
Proof.
  induction s as [|c r IH]; simpl; [reflexivity|].
  destruct (Ascii.eqb c d) eqn:E.
  - apply Ascii.eqb_eq in E. subst c.
    destruct (ascii_dec d d) as [_|H]; [|contradiction H; reflexivity].
    simpl. rewrite IH. reflexivity.
  - apply eqb_false_ne in E.
    destruct (ascii_dec c d) as [H|_]; [contradiction|].
    destruct (split_on d r); simpl in *; [discriminate IH | exact IH].
Qed.

Lemma blank_trim (s : list ascii) : blank s -> trim s = [].
Proof.
  intros H. unfold trim, rtrim.
  assert (Hl : forall t, blank t -> ltrim t = []).
  { induction 1 as [|c r Hc _ IH]; simpl; [reflexivity|].
    rewrite Hc. exact IH. }
  rewrite (Hl (rev s)) by (apply blank_rev, H). reflexivity.
Qed.

(** X10.  [separate_commands] returns no command exactly when every
    segment between the separators is whitespace (so for an empty text and
    for a text of whitespace), and it never returns more commands than the
    text has separators plus one. *)
Theorem separate_commands_empty (s : list ascii) :
  (separate_commands s = []
   <-> Forall (fun seg => trim seg = []) (split_on cmd_separator s)) /\
  (blank s -> separate_commands s = []) /\
  length (separate_commands s) <= S (count_occ ascii_dec s cmd_separator).
Proof.
  rewrite separate_commands_stored. unfold split_commands.
  split; [|split].
  - rewrite <- (number_commands_nil _ 1%Z). split.
    + intros H. apply map_eq_nil in H. exact H.
    + intros ->. reflexivity.
  - intros Hs.
    assert (H : number_commands 1 (split_on cmd_separator s) = []).
    { apply number_commands_nil.
      pose proof (split_on_characters _ cmd_separator s Hs) as Hsegs.
      eapply Forall_impl; [exact Hsegs|].
      intros seg Hseg. apply blank_trim, Hseg. }
    rewrite H. reflexivity.
  - rewrite length_map, <- split_on_length. apply number_commands_length.
Qed.

(** X11.  The commands the constructor hands to the parser,
    [separate_commands (delete_comments script)], hold no comment marker;
    when the script has fewer than [UINT_MAX] line terminators, their line
    numbers lie between 1 and the number of lines of the script itself,
    comments included. *)
Theorem commands_of_script (script : list ascii) :
  Forall (fun cmd => Forall (fun x => x <> comment_char) (snd cmd))
    (separate_commands (delete_comments script)) /\
  ((newlines script < UINT_MAX)%Z ->
   Forall (fun cmd => (1 <= fst cmd <= 1 + newlines script)%Z)
     (separate_commands (delete_comments script))).
Proof.
  assert (Hn : newlines (delete_comments script) = newlines script).
  { unfold newlines. rewrite delete_comments_strip. f_equal.
    apply strip_skip_newlines. }
  split.
  - rewrite separate_commands_stored. unfold split_commands.
    rewrite Forall_map.
    assert (Hm : Forall (fun x => x <> comment_char) (delete_comments script)).
    { rewrite delete_comments_strip. apply strip_skip_no_marker. }
    eapply Forall_impl;
      [apply (number_commands_wellformed _ _
                (split_on_characters _ cmd_separator _ Hm) 1%Z)|].
    intros [l t] (_ & H & _). exact H.
  - intros Hs. rewrite separate_commands_exact by (rewrite Hn; exact Hs).
    rewrite <- Hn. apply split_commands_bounds.
Qed.

(** ** run_parser *)

Section RunParserFurther.
Context `{P : parser}.

Lemma run_parser_body_frame (e : Z * list ascii) (c : configuration) :
  m_cmds (fst (run_parser_body e c)) = m_cmds c /\
  m_in_debug_testing_mode (fst (run_parser_body e c))
  = m_in_debug_testing_mode c /\
  m_reset_reverse_path_filter (fst (run_parser_body e c))
  = m_reset_reverse_path_filter c /\
  (table_names_valid (m_global_table_set c) ->
   table_names_valid (m_global_table_set (fst (run_parser_body e c)))).
Proof.
  unfold run_parser_body, global_table_set_insert. unfold_M.
  destruct (get_parser_type e) as [[| | | |]|what]; simpl; auto.
  - destruct (parse_group_mem_proto e); simpl; auto.
  - destruct (parse_instance_definition e (m_inst_def_set c)); simpl; auto.
  - destruct (parse_table e (m_global_table_set c) (m_gmp c)) as [t|what];
      simpl; auto.
    destruct (m_global_table_set c !! get_name t); simpl; auto.
    repeat split. intros Hv. apply map_Forall_insert_2; [reflexivity | exact Hv].
  - destruct (parse_interface_rule_binding e (m_global_table_set c) (m_gmp c)
                (m_inst_def_set c)); simpl; auto.
Qed.

Lemma run_parser_body_no_protocol (e : Z * list ascii) (c : configuration) :
  get_parser_type e <> OK PT_PROTOCOL ->
  m_gmp (fst (run_parser_body e c)) = m_gmp c.
Proof.
  intros Hp. unfold run_parser_body, global_table_set_insert. unfold_M.
  destruct (get_parser_type e) as [[| | | |]|what]; simpl; auto.
  - contradiction Hp. reflexivity.
  - destruct (parse_instance_definition e (m_inst_def_set c)); reflexivity.
  - destruct (parse_table e (m_global_table_set c) (m_gmp c)) as [t|what];
      simpl; auto.
    destruct (m_global_table_set c !! get_name t); reflexivity.
  - destruct (parse_interface_rule_binding e (m_global_table_set c) (m_gmp c)
                (m_inst_def_set c)); reflexivity.
Qed.

Lemma run_commands_no_protocol (cmds : list (Z * list ascii)) :
  Forall (fun e => get_parser_type e <> OK PT_PROTOCOL) cmds ->
  forall c, m_gmp (fst (run_commands cmds c)) = m_gmp c.
Proof.
  unfold run_commands.
  induction 1 as [|e cmds He _ IH]; intros c; simpl; [reflexivity|].
  pose proof (run_parser_body_no_protocol e c He) as Hstep.
  unfold bind. destruct (run_parser_body e c) as [c1 [[]|what]]; simpl in *.
  - rewrite IH. exact Hstep.
  - exact Hstep.
Qed.

Lemma run_commands_keeps_reset (cmds : list (Z * list ascii)) :
  forall c,
    m_reset_reverse_path_filter (fst (run_commands cmds c))
    = m_reset_reverse_path_filter c.
Proof.
  unfold run_commands.
  induction cmds as [|e cmds IH]; intros c; simpl; [reflexivity|].
  pose proof (run_parser_body_frame e c) as (_ & _ & H & _).
  unfold bind. destruct (run_parser_body e c) as [c1 [[]|what]]; simpl in *.
  - rewrite IH. exact H.
  - exact H.
Qed.

(** X12.  [run_parser] stops at the first command that fails: when the
    first commands [pre] of a script end in an exception, the whole script
    ends in that exception with the members as they were then, whatever
    commands follow, and the constructor is left by that exception, in
    testing mode and in production mode, before any interface is
    resolved. *)
Theorem run_parser_stops_at_first_failure `{R : resolver}
    (file : option (list ascii)) (script : list ascii)
    (reset_reverse_path_filter in_debug_testing_mode : bool)
    (pre post : list (Z * list ascii)) (c1 : configuration)
    (what : string) :
  load_file file = OK script ->
  separate_commands (delete_comments script) = pre ++ post ->
  run_commands pre
    (members_at_entry in_debug_testing_mode reset_reverse_path_filter
       (pre ++ post))
  = (c1, Throw what) ->
  run_commands (pre ++ post)
    (members_at_entry in_debug_testing_mode reset_reverse_path_filter
       (pre ++ post))
  = (c1, Throw what) /\
  configuration_new file reset_reverse_path_filter in_debug_testing_mode
  = Throw what.
Proof.
  intros Hload Hcmds Hpre.
  assert (Hall : run_commands (pre ++ post)
                   (members_at_entry in_debug_testing_mode
                      reset_reverse_path_filter (pre ++ post))
                 = (c1, Throw what)).
  { unfold run_commands in *. apply for_each_app_Throw, Hpre. }
  split; [exact Hall|].
  unfold configuration_new.
  rewrite Hload, Hcmds. unfold bind at 1.
  unfold run_parser. unfold bind at 1. unfold gets at 1. simpl m_cmds.
  rewrite Hall. reflexivity.
Qed.

(** X13.  Whatever the commands and however it is left, [run_parser]
    keeps the map of the resolved interfaces, the command list and the two
    mode flags as they are; every table of the Table Set stays in it
    unchanged, and every table stays filed under its own name. *)
Theorem run_parser_frame (cmds : list (Z * list ascii)) (c : configuration) :
  m_interfaces_map (fst (run_commands cmds c)) = m_interfaces_map c /\
  m_cmds (fst (run_commands cmds c)) = m_cmds c /\
  m_in_debug_testing_mode (fst (run_commands cmds c))
  = m_in_debug_testing_mode c /\
  m_reset_reverse_path_filter (fst (run_commands cmds c))
  = m_reset_reverse_path_filter c /\
  (forall name t,
     m_global_table_set c !! name = Some t ->
     m_global_table_set (fst (run_commands cmds c)) !! name = Some t) /\
  (table_names_valid (m_global_table_set c) ->
   table_names_valid (m_global_table_set (fst (run_commands cmds c)))).
Proof.
  split; [apply run_commands_keeps_interfaces_map|].
  assert (H : forall c,
    m_cmds (fst (run_commands cmds c)) = m_cmds c /\
    m_in_debug_testing_mode (fst (run_commands cmds c))
    = m_in_debug_testing_mode c /\
    m_reset_reverse_path_filter (fst (run_commands cmds c))
    = m_reset_reverse_path_filter c /\
    (table_names_valid (m_global_table_set c) ->
     table_names_valid (m_global_table_set (fst (run_commands cmds c))))).
  { unfold run_commands. clear c.
    induction cmds as [|e cmds IH]; intros c; simpl;
      [repeat split; auto|].
    pose proof (run_parser_body_frame e c) as (H1 & H2 & H3 & H4).
    unfold bind. destruct (run_parser_body e c) as [c1 [[]|what]];
      simpl in *; [|repeat split; auto].
    destruct (IH c1) as (I1 & I2 & I3 & I4).
    rewrite I1, I2, I3. repeat split; auto. }
  destruct (H c) as (H1 & H2 & H3 & H4).
  repeat split; try assumption.
  intros name t. apply run_commands_keeps_tables.
Qed.

End RunParserFurther.

Lemma run_parser_stops_at_first_failure_witness :
  run_commands (P := Sample.parser)
    ([(1%Z, str "protocol IGMPv9")] ++ [(2%Z, str "table T1 10.0.0.0/8")])
    (members_at_entry false false
       ([(1%Z, str "protocol IGMPv9")] ++ [(2%Z, str "table T1 10.0.0.0/8")]))
  = (members_at_entry false false
       ([(1%Z, str "protocol IGMPv9")] ++ [(2%Z, str "table T1 10.0.0.0/8")]),
     Throw "malformed protocol declaration") /\
  configuration_new (P := Sample.parser) (R := Sample.resolver)
    (Some (str "protocol IGMPv9;" ++ nl :: str "table T1 10.0.0.0/8;"))
    false false
  = Throw "malformed protocol declaration".
Proof.
  apply (run_parser_stops_at_first_failure
           (P := Sample.parser) (R := Sample.resolver)
           (Some (str "protocol IGMPv9;" ++ nl :: str "table T1 10.0.0.0/8;"))
           (str "protocol IGMPv9;" ++ nl :: str "table T1 10.0.0.0/8;" ++ [nl]));
    reflexivity.
Defined.

(** ** initalize_interfaces and the constructor *)

Section InitializeInterfacesFurther.
Context `{R : resolver}.

Lemma initalize_interfaces_body_frame (inst : instance_definition)
    (c : configuration) :
  m_global_table_set (fst (initalize_interfaces_body inst c))
  = m_global_table_set c /\
  m_inst_def_set (fst (initalize_interfaces_body inst c)) = m_inst_def_set c /\
  m_cmds (fst (initalize_interfaces_body inst c)) = m_cmds c /\
  m_in_debug_testing_mode (fst (initalize_interfaces_body inst c))
  = m_in_debug_testing_mode c.
Proof.
  destruct (initalize_interfaces_body_cases inst c)
    as [[what Hb] | (_ & _ & Hb)]; rewrite Hb; simpl; auto.
Qed.

Lemma initalize_interfaces_loop_frame (insts : list instance_definition) :
  forall c,
    m_global_table_set (fst (for_each insts initalize_interfaces_body c))
    = m_global_table_set c /\
    m_inst_def_set (fst (for_each insts initalize_interfaces_body c))
    = m_inst_def_set c /\
    m_cmds (fst (for_each insts initalize_interfaces_body c)) = m_cmds c /\
    m_in_debug_testing_mode (fst (for_each insts initalize_interfaces_body c))
    = m_in_debug_testing_mode c.
Proof.
  induction insts as [|inst insts IH]; intros c; simpl;
    [repeat split; reflexivity|].
  pose proof (initalize_interfaces_body_frame inst c) as (H1 & H2 & H3 & H4).
  unfold bind.
  destruct (initalize_interfaces_body inst c) as [c1 [[]|what]]; simpl in *;
    [|repeat split; assumption].
  destruct (IH c1) as (I1 & I2 & I3 & I4).
  rewrite I1, I2, I3, I4. repeat split; assumption.
Qed.

(** X14.  [initalize_interfaces] writes to the map of the resolved
    interfaces only: the protocol, the Table Set, the Instance Set, the
    command list and the flags are left as they are, however it is left;
    a group that is in the map stays in it unchanged, and a name that no
    instance bears gets no group. *)
Theorem initalize_interfaces_frame (c : configuration) :
  m_gmp (fst (initalize_interfaces c)) = m_gmp c /\
  m_global_table_set (fst (initalize_interfaces c)) = m_global_table_set c /\
  m_inst_def_set (fst (initalize_interfaces c)) = m_inst_def_set c /\
  m_cmds (fst (initalize_interfaces c)) = m_cmds c /\
  m_in_debug_testing_mode (fst (initalize_interfaces c))
  = m_in_debug_testing_mode c /\
  m_reset_reverse_path_filter (fst (initalize_interfaces c))
  = m_reset_reverse_path_filter c /\
  (forall name group,
     m_interfaces_map c !! name = Some group ->
     m_interfaces_map (fst (initalize_interfaces c)) !! name = Some group) /\
  (forall name,
     name ∉ map get_instance_name (m_inst_def_set c) ->
     m_interfaces_map (fst (initalize_interfaces c)) !! name
     = m_interfaces_map c !! name).
Proof.
  rewrite initalize_interfaces_unfold.
  pose proof (initalize_interfaces_loop_frame (m_inst_def_set c) c)
    as (H1 & H2 & H3 & H4).
  destruct (for_each (m_inst_def_set c) initalize_interfaces_body c)
    as [c' r] eqn:Hl.
  apply initalize_interfaces_loop_invariant in Hl
    as (_ & Hg & Hr & Hother & Hkeep).
  simpl in *. repeat split; assumption.
Qed.

Lemma for_each_add_succeeds (l : list interface) :
  (forall group h, add_interface_succeeds group h = true) ->
  Forall (fun interf => get_if_index (get_if_name interf) <> 0%Z) l ->
  forall result, exists result', for_each l add result = (result', OK tt).
Proof.
  intros Hadd. induction 1 as [|interf l Hi _ IH]; intros result; simpl.
  - eexists. reflexivity.
  - unfold bind.
    assert (Ha : exists r1, add interf result = (r1, OK tt)).
    { unfold add, add_interface. unfold_M.
      apply Z.eqb_neq in Hi. rewrite Hi, Hadd. eexists. reflexivity. }
    destruct Ha as [r1 ->]. apply IH.
Qed.

Lemma initalize_interfaces_loop_succeeds (insts : list instance_definition) :
  (forall group h, add_interface_succeeds group h = true) ->
  Forall (fun inst =>
            Forall (fun interf => get_if_index (get_if_name interf) <> 0%Z)
              (get_downstreams inst ++ get_upstreams inst)) insts ->
  NoDup (map get_instance_name insts) ->
  forall c,
    (forall inst, inst ∈ insts ->
       m_interfaces_map c !! get_instance_name inst = None) ->
    exists c', for_each insts initalize_interfaces_body c = (c', OK tt).
Proof.
  intros Hadd. induction 1 as [|i insts Hi _ IH]; intros Hnd c Hfree; simpl.
  - eexists. reflexivity.
  - apply NoDup_cons in Hnd as [Hnew Hnd]. unfold bind.
    destruct (for_each_add_succeeds _ Hadd Hi
                (mk_interfaces (get_addr_family (m_gmp c))
                   (m_reset_reverse_path_filter c) [])) as [result Hr].
    rewrite (initalize_interfaces_body_OK _ _ _ Hr).
    rewrite (Hfree i) by left.
    apply (IH Hnd). intros inst Hin. simpl. rewrite lookup_insert_ne.
    + apply Hfree. right. exact Hin.
    + intros Heq. apply Hnew. rewrite Heq. apply list_elem_of_fmap.
      exists inst. split; [reflexivity | exact Hin].
Qed.

(** X15.  Resolution succeeds when nothing stands in its way: if every
    interface name of every instance has a non-zero index, [add_interface]
    refuses no handle, the instance names are distinct and the map is
    empty, [initalize_interfaces] returns normally, and afterwards the map
    holds the group of each instance under its name and nothing under any
    other name. *)
Theorem initalize_interfaces_succeeds (c : configuration) :
  (forall group h, add_interface_succeeds group h = true) ->
  Forall (fun inst =>
            Forall (fun interf => get_if_index (get_if_name interf) <> 0%Z)
              (get_downstreams inst ++ get_upstreams inst))
    (m_inst_def_set c) ->
  NoDup (map get_instance_name (m_inst_def_set c)) ->
  m_interfaces_map c = ∅ ->
  exists c',
    initalize_interfaces c = (c', OK tt) /\
    (forall inst,
       inst ∈ m_inst_def_set c ->
       m_interfaces_map c' !! get_instance_name inst = Some (group_of c inst)) /\
    (forall name,
       name ∉ map get_instance_name (m_inst_def_set c) ->
       m_interfaces_map c' !! name = None).
Proof.
  intros Hadd Hnames Hnd Hempty. rewrite initalize_interfaces_unfold.
  destruct (initalize_interfaces_loop_succeeds _ Hadd Hnames Hnd c)
    as [c' Hl].
  { intros inst _. rewrite Hempty. apply lookup_empty. }
  exists c'. split; [exact Hl|]. split.
  - intros inst Hin.
    apply (initalize_interfaces_loop_OK _ _ _ Hl inst Hin).
  - intros name Hname.
    apply initalize_interfaces_loop_invariant in Hl
      as (_ & _ & _ & Hother & _).
    rewrite (Hother name Hname), Hempty. apply lookup_empty.
Qed.

(** X16.  A second instance of a name that has a group already is
    refused: when the loop reaches an instance whose names all resolve and
    whose name is in the map, [initalize_interfaces] throws "failed to add
    instance" and the group that was there is not replaced. *)
Theorem initalize_interfaces_duplicate_instance (c c1 : configuration)
    (pre post : list instance_definition) (inst : instance_definition)
    (result group : interfaces) :
  m_inst_def_set c = pre ++ inst :: post ->
  for_each pre initalize_interfaces_body c = (c1, OK tt) ->
  for_each (get_downstreams inst ++ get_upstreams inst) add
    (mk_interfaces (get_addr_family (m_gmp c1))
       (m_reset_reverse_path_filter c1) [])
  = (result, OK tt) ->
  m_interfaces_map c1 !! get_instance_name inst = Some group ->
  initalize_interfaces c = (c1, Throw "failed to add instance") /\
  m_interfaces_map (fst (initalize_interfaces c)) !! get_instance_name inst
  = Some group.
Proof.
  intros Hinsts Hpre Hnames Hthere.
  assert (H : initalize_interfaces c = (c1, Throw "failed to add instance")).
  { rewrite initalize_interfaces_unfold, Hinsts.
    rewrite (for_each_app_OK _ _ _ _ _ Hpre).
    apply for_each_cons_Throw.
    rewrite (initalize_interfaces_body_OK _ _ _ Hnames), Hthere.
    reflexivity. }
  split; [exact H|]. rewrite H. exact Hthere.
Qed.

(** X17.  A handle that [add_interface] refuses ends the resolution: when
    the loop reaches an interface whose name resolves to a non-zero index
    and [add_interface] returns false for it, [initalize_interfaces] throws
    "failed to add interface" with the members as they were before that
    instance. *)
Theorem initalize_interfaces_add_refused (c c1 : configuration)
    (pre post : list instance_definition) (inst : instance_definition)
    (before after : list interface) (interf : interface)
    (result : interfaces) :
  m_inst_def_set c = pre ++ inst :: post ->
  for_each pre initalize_interfaces_body c = (c1, OK tt) ->
  get_downstreams inst ++ get_upstreams inst = before ++ interf :: after ->
  for_each before add
    (mk_interfaces (get_addr_family (m_gmp c1))
       (m_reset_reverse_path_filter c1) [])
  = (result, OK tt) ->
  get_if_index (get_if_name interf) <> 0%Z ->
  add_interface_succeeds result (get_if_index (get_if_name interf)) = false ->
  initalize_interfaces c = (c1, Throw "failed to add interface").
Proof.
  intros Hinsts Hpre Hnames Hbefore Hnz Hrefused.
  rewrite initalize_interfaces_unfold, Hinsts.
  rewrite (for_each_app_OK _ _ _ _ _ Hpre).
  apply for_each_cons_Throw.
  apply (initalize_interfaces_body_Throw inst c1 result).
  rewrite Hnames, (for_each_app_OK _ _ _ _ _ Hbefore).
  apply for_each_cons_Throw.
  unfold add, add_interface. unfold_M.
  apply Z.eqb_neq in Hnz. rewrite Hnz, Hrefused. reflexivity.
Qed.

End InitializeInterfacesFurther.

Lemma initalize_interfaces_succeeds_witness :
  exists c',
    initalize_interfaces (R := Sample.resolver)
      (set_interfaces_map ∅ one_instance) = (c', OK tt) /\
    (forall inst,
       inst ∈ m_inst_def_set (set_interfaces_map ∅ one_instance) ->
       m_interfaces_map c' !! get_instance_name inst
       = Some (group_of (R := Sample.resolver)
                 (set_interfaces_map ∅ one_instance) inst)) /\
    (forall name,
       name ∉ map get_instance_name
                (m_inst_def_set (set_interfaces_map ∅ one_instance)) ->
       m_interfaces_map c' !! name = None).
Proof.
  apply (initalize_interfaces_succeeds (R := Sample.resolver)
           (set_interfaces_map ∅ one_instance)).
  - reflexivity.
  - repeat constructor; discriminate.
  - repeat constructor. intros H. apply elem_of_nil in H. exact H.
  - reflexivity.
Defined.

Lemma initalize_interfaces_duplicate_instance_witness :
  initalize_interfaces (R := Sample.resolver) same_name_instances
  = (set_interfaces_map {[ "P1"%string := mk_interfaces AF_INET false [2%Z] ]}
       same_name_instances,
     Throw "failed to add instance") /\
  m_interfaces_map
    (fst (initalize_interfaces (R := Sample.resolver) same_name_instances))
    !! "P1"%string
  = Some (mk_interfaces AF_INET false [2%Z]).
Proof.
  apply (initalize_interfaces_duplicate_instance (R := Sample.resolver)
           same_name_instances
           (set_interfaces_map
              {[ "P1"%string := mk_interfaces AF_INET false [2%Z] ]}
              same_name_instances)
           [mk_instance_definition "P1" [mk_interface "eth0" []] []] []
           (mk_instance_definition "P1" [mk_interface "eth1" []] [])
           (mk_interfaces AF_INET false [3%Z])
           (mk_interfaces AF_INET false [2%Z])); reflexivity.
Defined.

Lemma initalize_interfaces_add_refused_witness :
  initalize_interfaces (R := crowded_resolver)
    (set_interfaces_map ∅ one_instance)
  = (set_interfaces_map ∅ one_instance, Throw "failed to add interface").
Proof.
  apply (initalize_interfaces_add_refused (R := crowded_resolver)
           (set_interfaces_map ∅ one_instance)
           (set_interfaces_map ∅ one_instance)
           [] []
           (mk_instance_definition "P1"
              [mk_interface "eth0" []] [mk_interface "eth1" []])
           [mk_interface "eth0" []] [] (mk_interface "eth1" [])
           (mk_interfaces AF_INET false [2%Z]));
    try reflexivity.
  discriminate.
Defined.

(** The constructor returns in one of two ways. *)
Lemma configuration_new_OK `{P : parser} `{R : resolver}
    (file : option (list ascii))
    (reset_reverse_path_filter in_debug_testing_mode : bool)
    (c : configuration) :
  configuration_new file reset_reverse_path_filter in_debug_testing_mode
  = OK c ->
  exists script c1,
    load_file file = OK script /\
    run_parser
      (members_at_entry in_debug_testing_mode reset_reverse_path_filter
         (separate_commands (delete_comments script)))
    = (c1, OK tt) /\
    if in_debug_testing_mode then c = c1
    else initalize_interfaces c1 = (c, OK tt).
Proof.
  unfold configuration_new. destruct (load_file file) as [script|what];
    [|discriminate].
  unfold bind at 1.
  destruct (run_parser _) as [c1 [[]|what]] eqn:Hparse; [|discriminate].
  intros H. exists script, c1. split; [reflexivity|]. split; [exact Hparse|].
  destruct in_debug_testing_mode; simpl in H.
  - unfold ret in H. injection H as <-. reflexivity.
  - destruct (initalize_interfaces c1) as [c2 [[]|what]]; [|discriminate].
    injection H as <-. reflexivity.
Qed.

(** X18.  The protocol defaults to [IGMPv3]: a configuration built from a
    script none of whose commands the parser classifies as a Protocol
    Declaration reports [IGMPv3], in testing mode and in production
    mode. *)
Theorem configuration_new_default_protocol `{P : parser} `{R : resolver}
    (file : option (list ascii)) (script : list ascii)
    (reset_reverse_path_filter in_debug_testing_mode : bool)
    (c : configuration) :
  load_file file = OK script ->
  Forall (fun e => get_parser_type e <> OK PT_PROTOCOL)
    (separate_commands (delete_comments script)) ->
  configuration_new file reset_reverse_path_filter in_debug_testing_mode
  = OK c ->
  get_group_mem_protocol c = IGMPv3.
Proof.
  intros Hload Hcmds Hnew.
  apply configuration_new_OK in Hnew as (script' & c1 & Hload' & Hparse & Hc).
  rewrite Hload in Hload'. injection Hload' as <-.
  assert (H1 : m_gmp c1 = IGMPv3).
  { pose proof (run_commands_no_protocol _ Hcmds
                  (members_at_entry in_debug_testing_mode
                     reset_reverse_path_filter
                     (separate_commands (delete_comments script)))) as H.
    unfold run_parser in Hparse. unfold bind, gets in Hparse.
    simpl m_cmds in Hparse. rewrite Hparse in H. exact H. }
  unfold get_group_mem_protocol. destruct in_debug_testing_mode.
  - subst c. exact H1.
  - rewrite initalize_interfaces_unfold in Hc.
    apply initalize_interfaces_loop_invariant in Hc as (_ & Hg & _).
    rewrite Hg. exact H1.
Qed.

Lemma configuration_new_default_protocol_witness :
  get_group_mem_protocol one_instance = IGMPv3.
Proof.
  apply (configuration_new_default_protocol
           (P := Sample.parser) (R := Sample.resolver)
           (Some one_instance_script) (one_instance_script ++ [nl])
           false false one_instance).
  - reflexivity.
  - repeat constructor. discriminate.
  - reflexivity.
Defined.

(** X19.  In testing mode the constructor resolves nothing: its result
    does not depend on the resolver, and the configuration it returns has
    no group for any instance name ([get_interfaces_for_pinstance] returns
    the null pointer). *)
Theorem testing_mode_resolves_nothing `{P : parser} (R1 R2 : resolver)
    (file : option (list ascii)) (reset_reverse_path_filter : bool) :
  configuration_new (R := R1) file reset_reverse_path_filter true
  = configuration_new (R := R2) file reset_reverse_path_filter true /\
  (forall c instance_name,
     configuration_new (R := R1) file reset_reverse_path_filter true = OK c ->
     get_interfaces_for_pinstance c instance_name = None).
Proof.
  split; [reflexivity|].
  intros c name Hnew.
  apply configuration_new_OK in Hnew as (script & c1 & _ & Hparse & ->).
  pose proof (run_parser_keeps_interfaces_map
                (members_at_entry true reset_reverse_path_filter
                   (separate_commands (delete_comments script)))) as Hmap.
  rewrite Hparse in Hmap. unfold get_interfaces_for_pinstance.
  simpl in Hmap. rewrite Hmap. apply lookup_empty.
Qed.

(** X20.  What a configuration built in production mode answers:
    [get_interfaces_for_pinstance] returns, for the name of each instance
    of [get_inst_def_set], the group with the address family of the
    protocol and the handles of the instance's downstream and then
    upstream names, none of them zero; for a name that no instance bears
    it returns the null pointer. *)
Theorem configuration_new_groups `{P : parser} `{R : resolver}
    (file : option (list ascii)) (reset_reverse_path_filter : bool)
    (c : configuration) :
  configuration_new file reset_reverse_path_filter false = OK c ->
  (forall inst,
     inst ∈ get_inst_def_set c ->
     get_interfaces_for_pinstance c (get_instance_name inst)
     = Some (mk_interfaces (get_addr_family (get_group_mem_protocol c))
               reset_reverse_path_filter
               (map get_if_index (if_names inst))) /\
     Forall (fun h => h <> 0%Z) (map get_if_index (if_names inst))) /\
  (forall instance_name,
     instance_name ∉ map get_instance_name (get_inst_def_set c) ->
     get_interfaces_for_pinstance c instance_name = None).
Proof.
  intros Hnew.
  apply configuration_new_OK in Hnew as (script & c1 & _ & Hparse & Hinit).
  pose proof (run_parser_keeps_interfaces_map
                (members_at_entry false reset_reverse_path_filter
                   (separate_commands (delete_comments script)))) as Hmap.
  rewrite Hparse in Hmap. simpl in Hmap.
  assert (Hreset : m_reset_reverse_path_filter c1 = reset_reverse_path_filter).
  { unfold run_parser in Hparse. unfold bind, gets in Hparse.
    simpl m_cmds in Hparse.
    pose proof (run_commands_keeps_reset
                  (separate_commands (delete_comments script))
                  (members_at_entry false reset_reverse_path_filter
                     (separate_commands (delete_comments script)))) as H.
    rewrite Hparse in H. exact H. }
  rewrite initalize_interfaces_unfold in Hinit.
  pose proof (initalize_interfaces_loop_frame (m_inst_def_set c1) c1)
    as (_ & Hinsts & _).
  rewrite Hinit in Hinsts. simpl in Hinsts.
  pose proof (initalize_interfaces_loop_OK _ _ _ Hinit) as Hgroups.
  apply initalize_interfaces_loop_invariant in Hinit
    as (_ & Hg & _ & Hother & _).
  unfold get_interfaces_for_pinstance, get_inst_def_set,
    get_group_mem_protocol.
  rewrite Hinsts, Hg. split.
  - intros inst Hin. rewrite <- Hreset. apply Hgroups, Hin.
  - intros name Hname. rewrite (Hother name Hname), Hmap.
    apply lookup_empty.
Qed.

Lemma configuration_new_groups_witness :
  (forall inst,
     inst ∈ get_inst_def_set one_instance ->
     get_interfaces_for_pinstance one_instance (get_instance_name inst)
     = Some (mk_interfaces
               (get_addr_family (get_group_mem_protocol one_instance)) false
               (map (get_if_index (resolver := Sample.resolver))
                  (if_names inst))) /\
     Forall (fun h => h <> 0%Z)
       (map (get_if_index (resolver := Sample.resolver)) (if_names inst))) /\
  (forall instance_name,
     instance_name ∉ map get_instance_name (get_inst_def_set one_instance) ->
     get_interfaces_for_pinstance one_instance instance_name = None).
Proof.
  apply (configuration_new_groups (P := Sample.parser) (R := Sample.resolver)
           (Some one_instance_script) false one_instance).
  reflexivity.
Defined.

(** X21.  A table that is defined can be looked up for the rest of the
    run: once a Table Definition with a free name is processed, the Table
    Set holds the parsed table under its name, whatever commands follow
    and however [run_parser] is left. *)
Theorem run_parser_table_defined `{P : parser} (c c1 : configuration)
    (pre post : list (Z * list ascii)) (e : Z * list ascii) (t : table) :
  run_commands pre c = (c1, OK tt) ->
  get_parser_type e = OK PT_TABLE ->
  parse_table e (m_global_table_set c1) (m_gmp c1) = OK t ->
  m_global_table_set c1 !! get_name t = None ->
  m_global_table_set (fst (run_commands (pre ++ e :: post) c)) !! get_name t
  = Some t.
Proof.
  intros Hpre Ht Hp Hfree. unfold run_commands in *.
  rewrite (for_each_app_OK _ _ _ _ _ Hpre).
  rewrite (for_each_cons_OK _ _ _ _ _
             (run_parser_body_table_new e t c1 Ht Hp Hfree)).
  apply (run_commands_keeps_tables post). simpl. apply lookup_insert_eq.
Qed.

Lemma run_parser_table_defined_witness :
  m_global_table_set
    (fst (run_commands (P := Sample.parser)
            ([(1%Z, str "protocol MLDv2")]
               ++ (2%Z, str "table T1 fe80::/10")
               :: [(3%Z, str "table T1 ff02::/16")])
            (members_at_entry true false [])))
    !! get_name (mk_table "T1" ["fe80::/10"%string])
  = Some (mk_table "T1" ["fe80::/10"%string]).
Proof.
  apply (run_parser_table_defined (P := Sample.parser)
           (members_at_entry true false [])
           (set_gmp MLDv2 (members_at_entry true false []))
           [(1%Z, str "protocol MLDv2")]
           [(3%Z, str "table T1 ff02::/16")]
           (2%Z, str "table T1 fe80::/10")
           (mk_table "T1" ["fe80::/10"%string])); reflexivity.
Defined.
